(** * cpp-dotenv: the symbol-resolution engine of [dotenv::Parser]

    A shallow embedding of [src/Parser.cpp].  The member functions of
    [dotenv::Parser] are transcribed statement by statement into a small
    state-and-exception monad.  The listener classes and the [SymbolRecord]
    and [errors] helpers live in other files of the repository and are
    modelled from the specification (each such definition says so); the two
    ANTLR grammars are parameters of the engine, and so is the order in
    which [std::unordered_map] iterates. *)

From Stdlib Require Import List String Ascii Bool NArith Arith Lia.
From Stdlib Require Import Permutation Relations.
Import ListNotations.
Open Scope string_scope.
Open Scope list_scope.

Set Implicit Arguments.

(* ------------------------------------------------------------------ *)
(** ** [size_t] *)

(** [unresolved] is a [size_t]: a 64-bit unsigned counter.  [++] and [--]
    wrap around. *)
Definition SIZE_MODULUS : N := 2 ^ 64.

Definition size_incr (n : N) : N := ((n + 1) mod SIZE_MODULUS)%N.

Definition size_decr (n : N) : N :=
  if (n =? 0)%N then (SIZE_MODULUS - 1)%N else (n - 1)%N.

(* ------------------------------------------------------------------ *)
(** ** Tables *)

(** [std::unordered_map<std::string, V>]: an association list kept in the
    container's iteration order.  The container never holds a key twice;
    [emplace] and [assign] keep it so.  The standard leaves the iteration
    order open: where a new key comes to stand among the keys already held
    is the container's business (its hash function and bucket count).  The
    two inserting operations therefore take that choice as a parameter,
    [place]: the index the new entry is put at, given its key and the keys
    held.  Every order in which the keys of a table can be iterated once
    they are all inserted is the order of some [place] (lemma
    [every_order]); the loops of the engine run over tables that are not
    inserted into any more. *)
Module Table.
Section Ops.
Variable V : Type.

Definition t := list (string * V).

Definition keys (m : t) : list string := map fst m.

(** [m.find(k)] *)
Fixpoint find (k : string) (m : t) : option V :=
  match m with
  | [] => None
  | (k', v) :: rest => if String.eqb k k' then Some v else find k rest
  end.

(** [m.at(k) = f (m.at(k))]: mutation through the reference returned by
    [at]; nothing happens here when the key is absent (the callers test
    [find] first, where [at] would throw). *)
Fixpoint update (k : string) (f : V -> V) (m : t) : t :=
  match m with
  | [] => []
  | (k', v) :: rest =>
      if String.eqb k k' then (k', f v) :: rest
      else (k', v) :: update k f rest
  end.

(** A new entry put at index [i] (last, when the table is shorter). *)
Definition put (i : nat) (kv : string * V) (m : t) : t :=
  firstn i m ++ kv :: skipn i m.

(** [m.emplace(k, v)]: inserts only when the key is absent. *)
Definition emplace (place : string -> list string -> nat)
    (k : string) (v : V) (m : t) : t :=
  match find k m with
  | Some _ => m
  | None => put (place k (keys m)) (k, v) m
  end.

(** [m[k] = v]: inserts or replaces. *)
Definition assign (place : string -> list string -> nat)
    (k : string) (v : V) (m : t) : t :=
  match find k m with
  | Some _ => update k (fun _ => v) m
  | None => put (place k (keys m)) (k, v) m
  end.

(** The entries of [l] before the key [k]. *)
Fixpoint before (k : string) (l : t) : t :=
  match l with
  | [] => []
  | (k', v) :: rest =>
      if String.eqb k k' then [] else (k', v) :: before k rest
  end.

Definition held_in (held : list string) (kv : string * V) : bool :=
  existsb (String.eqb (fst kv)) held.

(** The container whose tables iterate in the order of [target]: a new key
    is put after the keys held that come before it in [target]. *)
Definition place_as (target : t) (k : string) (held : list string) : nat :=
  List.length (filter (held_in held) (before k target)).
End Ops.
End Table.

(* ------------------------------------------------------------------ *)
(** ** Data model *)

(** Modelled from the spec: [SymbolRecord] (its header is not among the
    sources).  [num_depends] is the spec's [pendingReferences]; [local] is
    the origin tag (true for Local, false for External). *)
Record SymbolRecord : Type := mkSymbolRecord {
  value : string;
  local : bool;
  num_depends : nat
}.

(** Modelled from the spec: [SymbolRecord::complete()], true iff no reference
    is pending. *)
Definition complete (r : SymbolRecord) : bool := Nat.eqb (num_depends r) 0.

Definition set_value (v : string) (r : SymbolRecord) : SymbolRecord :=
  mkSymbolRecord v (local r) (num_depends r).

Definition set_depends (n : nat) (r : SymbolRecord) : SymbolRecord :=
  mkSymbolRecord (value r) (local r) n.

(** Modelled from the spec: [ReferenceRecord], the first-seen location of a
    referenced key. *)
Record ReferenceRecord : Type := mkReferenceRecord {
  line : nat;
  pos : nat
}.

Definition SymbolsTable := Table.t SymbolRecord.
Definition ReferencesTable := Table.t ReferenceRecord.

(** Modelled from the spec: the resolution-time error records collected by
    the [errors] namespace. *)
Inductive Diagnostic : Type :=
| UndefinedVariableError (key : string) (l p : nat)
| CircularReferenceError (key : string) (l p : nat).

Definition is_undefined (d : Diagnostic) : bool :=
  match d with UndefinedVariableError _ _ _ => true | _ => false end.

Definition is_circular (d : Diagnostic) : bool :=
  match d with CircularReferenceError _ _ _ => true | _ => false end.

(** One call [setenv(key, value, overwrite)]. *)
Record SetenvCall : Type := mkSetenvCall {
  env_key : string;
  env_value : string;
  env_overwrite : bool
}.

(** What the line grammar yields for a value: plain text and the two kinds of
    occurrence, each occurrence with its payload, the text it covers and its
    location. *)
Inductive Segment : Type :=
| Text (raw : string)
| Reference (name raw : string) (l p : nat)
| Escape (decoded raw : string) (l p : nat).

(** One definition found in the source: key, raw value, locality. *)
Definition Binding : Type := (string * string * bool)%type.

(* ------------------------------------------------------------------ *)
(** ** Machine state and the execution monad *)

(** The members of [dotenv::Parser] ([unresolved], [symbols_table],
    [references_table]) together with the global state the parser acts on:
    the [errors] sink, the batches already flushed to the caller, and the
    [setenv] calls made so far. *)
Record State : Type := mkState {
  unresolved : N;
  symbols_table : SymbolsTable;
  references_table : ReferencesTable;
  errors : list Diagnostic;
  flushed : list (list Diagnostic);
  environ_calls : list SetenvCall
}.

(** The state of a freshly constructed [Parser] ([unresolved(0)], empty
    tables) in a process that has reported nothing yet. *)
Definition fresh : State := mkState 0 [] [] [] [] [].

(** A call either returns, or leaves by the [std::out_of_range] that
    [unordered_map::at] throws (nothing in [Parser.cpp] catches it), or is
    still running when the fuel of the [while] loop is spent. *)
Inductive Outcome (A : Type) : Type :=
| Returned (a : A) (s : State)
| Thrown (s : State)
| OutOfFuel.

Arguments Thrown {A} s.
Arguments OutOfFuel {A}.

Definition M (A : Type) : Type := State -> Outcome A.

Definition ret {A} (a : A) : M A := fun s => Returned a s.

Definition bind {A B} (m : M A) (k : A -> M B) : M B :=
  fun s =>
    match m s with
    | Returned a s' => k a s'
    | Thrown s' => Thrown s'
    | OutOfFuel => OutOfFuel
    end.

Declare Scope exec_scope.
Delimit Scope exec_scope with exec.
Notation "x <- m ;; k" := (bind m (fun x => k))
  (at level 61, m at next level, right associativity) : exec_scope.
Notation "m ;;; k" := (bind m (fun _ => k))
  (at level 61, right associativity) : exec_scope.
Open Scope exec_scope.

Definition get : M State := fun s => Returned s s.
Definition modify (f : State -> State) : M unit := fun s => Returned tt (f s).
Definition throw_out_of_range {A} : M A := fun s => Thrown s.

Definition with_unresolved (u : N) (s : State) : State :=
  mkState u (symbols_table s) (references_table s) (errors s) (flushed s)
    (environ_calls s).

Definition with_symbols (t : SymbolsTable) (s : State) : State :=
  mkState (unresolved s) t (references_table s) (errors s) (flushed s)
    (environ_calls s).

Definition with_references (t : ReferencesTable) (s : State) : State :=
  mkState (unresolved s) (symbols_table s) t (errors s) (flushed s)
    (environ_calls s).

Definition with_errors (e : list Diagnostic) (s : State) : State :=
  mkState (unresolved s) (symbols_table s) (references_table s) e (flushed s)
    (environ_calls s).

(** [symbols_table.at(key)] *)
Definition symbol_at (key : string) : M SymbolRecord :=
  fun s =>
    match Table.find key (symbols_table s) with
    | Some r => Returned r s
    | None => Thrown s
    end.

(** Modelled from the spec: [errors::clear()] empties the sink. *)
Definition errors_clear : M unit := modify (with_errors []).

(** Modelled from the spec: [errors::flush()] hands the accumulated records
    to the caller as one batch and leaves the sink empty. *)
Definition errors_flush : M unit :=
  modify (fun s =>
    mkState (unresolved s) (symbols_table s) (references_table s) []
      (flushed s ++ [errors s]) (environ_calls s)).

(** Modelled from the spec: [errors::circular_reference_error] appends one
    record to the sink. *)
Definition circular_reference_error (key : string) (l p : nat) : M unit :=
  modify (fun s => with_errors (errors s ++ [CircularReferenceError key l p]) s).

(** [setenv(key, value, overwrite)], recorded as a call on the environment
    boundary. *)
Definition setenv (key v : string) (overwrite : bool) : M unit :=
  modify (fun s =>
    mkState (unresolved s) (symbols_table s) (references_table s) (errors s)
      (flushed s) (environ_calls s ++ [mkSetenvCall key v overwrite])).

Definition gets {A} (f : State -> A) : M A := fun s => Returned (f s) s.

(** A [const SymbolRecord&] taken with [at] stays bound to the table entry:
    reading it again after a walk reads the entry as it is then.  (No walk
    erases a key; [r] stands for the entry if one did.) *)
Definition deref (key : string) (r : SymbolRecord) : M SymbolRecord :=
  gets (fun s =>
    match Table.find key (symbols_table s) with
    | Some r' => r'
    | None => r
    end).

(* ------------------------------------------------------------------ *)
(** ** The engine, over the two grammars *)

(** The two ANTLR grammars, as the engine uses them.  [scanDefinitions] is
    the file grammar (DotenvLexer, DotenvParser, and the tree the
    SymbolsListener is walked over): the definitions found in a source, in
    source order.  [scanOccurrences] is the line grammar (LineLexer,
    LineParser): the segments of a value.  With them comes the one thing
    the standard library leaves open to the engine: [placeKey], the place
    [std::unordered_map] gives a new key among the keys it holds, which
    fixes the order of every loop over a table. *)
Class Grammars : Type := {
  scanDefinitions : string -> list Binding;
  scanOccurrences : string -> list Segment;
  placeKey : string -> list string -> nat
}.

Section Engine.

Context {G : Grammars}.

(** [walk_line(line, listener)]: the value is parsed with the line grammar
    and the listener is walked over the tree, one callback per segment. *)
Definition walk_line {A} (ln : string) (listener : A -> Segment -> A)
    (init : A) : A :=
  fold_left listener (scanOccurrences ln) init.

(** *** The listeners *)

Record ReferencesWalk : Type := mkReferencesWalk {
  rw_value : string;
  rw_found : nat;
  rw_references : ReferencesTable;
  rw_errors : list Diagnostic
}.

(** Modelled from the spec: the dependency scan of one occurrence (4.2).
    A reference to a key absent from the Symbol Table is reported at once
    and treated as an empty substitution, and does not count; any other
    reference counts, and its location enters the Reference Table if the
    key is not there yet. *)
Definition references_listener (symbols : SymbolsTable)
    (w : ReferencesWalk) (seg : Segment) : ReferencesWalk :=
  match seg with
  | Text raw | Escape _ raw _ _ =>
      mkReferencesWalk (rw_value w ++ raw)%string (rw_found w)
        (rw_references w) (rw_errors w)
  | Reference k raw l p =>
      match Table.find k symbols with
      | None =>
          mkReferencesWalk (rw_value w) (rw_found w) (rw_references w)
            (rw_errors w ++ [UndefinedVariableError k l p])
      | Some _ =>
          mkReferencesWalk (rw_value w ++ raw)%string (S (rw_found w))
            (Table.emplace placeKey k (mkReferenceRecord l p)
               (rw_references w))
            (rw_errors w)
      end
  end.

(** Modelled from the spec: [ReferencesListener(key, references_table,
    symbols_table)] walked over [ln]; the record of [key] gains one pending
    reference per counted occurrence. *)
Definition ReferencesListener (key ln : string) : M unit :=
  modify (fun s =>
    let w := walk_line ln (references_listener (symbols_table s))
               (mkReferencesWalk "" 0 (references_table s) (errors s)) in
    mkState (unresolved s)
      (Table.update key
         (fun r => mkSymbolRecord (rw_value w) (local r)
                     (num_depends r + rw_found w))
         (symbols_table s))
      (rw_references w) (rw_errors w) (flushed s) (environ_calls s)).

(** Modelled from the spec: the substitution primitive on one segment
    (4.3), for references.  A complete target is substituted by its current
    value; an incomplete one is left untouched and stays pending, or, under
    the relaxed rule of the cycle breaker (4.5), is replaced by the empty
    string; a target absent from the table is an empty substitution. *)
Definition substitute (relaxed : bool) (symbols : SymbolsTable)
    (acc : string * nat) (seg : Segment) : string * nat :=
  let (out, remaining) := acc in
  match seg with
  | Text raw | Escape _ raw _ _ => ((out ++ raw)%string, remaining)
  | Reference k raw _ _ =>
      match Table.find k symbols with
      | None => (out, remaining)
      | Some target =>
          if complete target then ((out ++ value target)%string, remaining)
          else if relaxed then (out, remaining)
          else ((out ++ raw)%string, S remaining)
      end
  end.

(** Modelled from the spec: [ResolverListener(key, symbols_table)] walked
    over [ln]; the pending count is recomputed from the occurrences left
    unresolved by the pass. *)
Definition ResolverListener (key ln : string) : M unit :=
  modify (fun s =>
    let (out, remaining) :=
      walk_line ln (substitute false (symbols_table s)) ("", 0) in
    with_symbols
      (Table.update key (fun r => mkSymbolRecord out (local r) remaining)
         (symbols_table s)) s).

(** Modelled from the spec: [UnresolvedListener(key, symbols_table)] walked
    over [ln]; the relaxed rule, and the record is marked complete. *)
Definition UnresolvedListener (key ln : string) : M unit :=
  modify (fun s =>
    let (out, _) :=
      walk_line ln (substitute true (symbols_table s)) ("", 0) in
    with_symbols
      (Table.update key (fun r => mkSymbolRecord out (local r) 0)
         (symbols_table s)) s).

(** Modelled from the spec: the primitive restricted to escape tokens
    (4.6): an escape is replaced by its decoded literal, everything else is
    kept as it is. *)
Definition expand (out : string) (seg : Segment) : string :=
  match seg with
  | Text raw | Reference _ raw _ _ => (out ++ raw)%string
  | Escape decoded _ _ _ => (out ++ decoded)%string
  end.

(** Modelled from the spec: [ExpanderListener(key, symbols_table)] walked
    over [ln]. *)
Definition ExpanderListener (key ln : string) : M unit :=
  modify (fun s =>
    with_symbols
      (Table.update key (set_value (walk_line ln expand ""))
         (symbols_table s)) s).

(** *** [Parser::parse_dotenv] *)

(** Modelled from the spec: what [SymbolsListener(overwrite, symbols_table,
    ...)] does with one definition (4.1, [define]): a key already in the
    table is replaced only when the overwrite policy allows it; a new
    record has no pending reference. *)
Definition define (overwrite : bool) (t : SymbolsTable) (b : Binding)
    : SymbolsTable :=
  let '(key, v, locality) := b in
  match Table.find key t with
  | Some _ =>
      if overwrite
      then Table.assign placeKey key (mkSymbolRecord v locality 0) t
      else t
  | None => Table.assign placeKey key (mkSymbolRecord v locality 0) t
  end.

(** The source is parsed with the file grammar and the SymbolsListener is
    walked over the tree.  (The CheckerListener reports syntax errors of
    the file grammar, which are outside the engine.) *)
Definition parse_dotenv (is_ : string) (overwrite : bool) : M unit :=
  modify (fun s =>
    with_symbols
      (fold_left (define overwrite) (scanDefinitions is_) (symbols_table s))
      s).

(** *** Loops over a table *)

(** A range-[for] without [break]: the body runs on every element in
    iteration order; an exception leaves the loop. *)
Fixpoint for_each {K : Type} (body : K -> M unit) (ks : list K) : M unit :=
  match ks with
  | [] => ret tt
  | k :: rest => body k ;;; for_each body rest
  end.

(** [for (... symbol : symbols_table)]: the loop runs over the keys the
    table holds; no body below inserts or erases one. *)
Definition for_each_symbol (body : string -> M unit) : M unit :=
  fun s => for_each body (Table.keys (symbols_table s)) s.

Definition incr_unresolved : M unit :=
  modify (fun s => with_unresolved (size_incr (unresolved s)) s).

Definition decr_unresolved : M unit :=
  modify (fun s => with_unresolved (size_decr (unresolved s)) s).

(** *** [Parser::parse_line] *)

Definition scan_symbol (key : string) : M unit :=
  record <- symbol_at key ;;
  if local record then
    ReferencesListener key (value record) ;;;
    record <- deref key record ;;
    if negb (complete record) then incr_unresolved else ret tt
  else ret tt.

Definition parse_line : M unit := for_each_symbol scan_symbol.

(** *** [Parser::resolve_vars] *)

(** The body of the [for] loop of [resolve_vars]; the result tells whether
    the loop is left by [break]. *)
Definition resolve_symbol (key : string) : M bool :=
  record <- symbol_at key ;;
  if local record && negb (complete record) then
    ResolverListener key (value record) ;;;
    record <- deref key record ;;
    (if complete record then decr_unresolved else ret tt) ;;;
    u <- gets unresolved ;;
    ret (u =? 0)%N
  else ret false.

(** One sweep over the table. *)
Fixpoint resolve_sweep (keys : list string) : M unit :=
  match keys with
  | [] => ret tt
  | key :: rest =>
      stop <- resolve_symbol key ;;
      if stop then ret tt else resolve_sweep rest
  end.

Definition sweep : M unit :=
  fun s => resolve_sweep (Table.keys (symbols_table s)) s.

(** *** [Parser::report_unresolved_vars] *)

Definition report_reference (reference : string * ReferenceRecord)
    : M unit :=
  let (ref_key, reference_record) := reference in
  symbol_record <- symbol_at ref_key ;;
  if negb (complete symbol_record) then
    circular_reference_error ref_key (line reference_record)
      (pos reference_record)
  else ret tt.

Definition report_unresolved_vars : M unit :=
  fun s => for_each report_reference (references_table s) s.

(** *** [Parser::resolve_unresolved_vars] *)

Definition force_symbol (key : string) : M unit :=
  record <- symbol_at key ;;
  if local record && negb (complete record) then
    UnresolvedListener key (value record) ;;;
    record <- deref key record ;;
    if complete record then decr_unresolved else ret tt
  else ret tt.

Definition resolve_unresolved_vars : M unit := for_each_symbol force_symbol.

(** The body of the [while] loop of [resolve_vars]: one sweep, then the
    stall test and, on a stall, the cycle breaker. *)
Definition resolve_pass : M unit :=
  old_unresolved <- gets unresolved ;;
  sweep ;;;
  u <- gets unresolved ;;
  if (old_unresolved =? u)%N then
    report_unresolved_vars ;;; resolve_unresolved_vars
  else ret tt.

(** [while (unresolved > 0)]: [fuel] bounds the number of iterations. *)
Fixpoint resolve_vars (fuel : nat) : M unit :=
  fun s =>
    if (0 <? unresolved s)%N then
      match fuel with
      | O => OutOfFuel
      | S fuel' => (resolve_pass ;;; resolve_vars fuel') s
      end
    else Returned tt s.

(** [n] iterations of the loop body, one sweep each. *)
Fixpoint passes (n : nat) : M unit :=
  match n with
  | O => ret tt
  | S n' => resolve_pass ;;; passes n'
  end.

(** *** [Parser::expand_escape] *)

Definition expand_symbol (key : string) : M unit :=
  record <- symbol_at key ;;
  if local record then ExpanderListener key (value record) else ret tt.

Definition expand_escape : M unit := for_each_symbol expand_symbol.

(** *** [Parser::register_env] *)

Definition register_symbol (overwrite : bool) (key : string) : M unit :=
  record <- symbol_at key ;;
  if local record then setenv key (value record) overwrite else ret tt.

Definition register_env (overwrite : bool) : M unit :=
  for_each_symbol (register_symbol overwrite).

(** *** [Parser::parse] *)

(** The three statements that open [parse]. *)
Definition initialization : M unit :=
  modify (with_unresolved 0) ;;;
  modify (with_symbols []) ;;;
  errors_clear.

(** What [parse] runs before the resolver when it interpolates. *)
Definition scan_phase (is_ : string) (overwrite : bool) : M unit :=
  initialization ;;; parse_dotenv is_ overwrite ;;; parse_line.

(** What [parse] runs before the escape expander. *)
Definition resolution (fuel : nat) (is_ : string)
    (overwrite interpolate : bool) : M unit :=
  initialization ;;;
  parse_dotenv is_ overwrite ;;;
  (if interpolate then parse_line ;;; resolve_vars fuel else ret tt).

(** What [parse] runs after the resolver. *)
Definition publish (overwrite : bool) : M unit :=
  expand_escape ;;; register_env overwrite ;;; errors_flush.

(** What [parse] runs when it does not interpolate. *)
Definition parse_raw (is_ : string) (overwrite : bool) : M unit :=
  initialization ;;; parse_dotenv is_ overwrite ;;; publish overwrite.

(** The table [parse_dotenv] builds from a source. *)
Definition raw_table (is_ : string) (overwrite : bool) : SymbolsTable :=
  fold_left (define overwrite) (scanDefinitions is_) [].

(** A record after the escape expander: the walk is applied to the value
    of a Local record; an External record is as it was. *)
Definition expanded (r : SymbolRecord) : SymbolRecord :=
  if local r then set_value (walk_line (value r) expand "") r else r.

(** A sweep from [s] leaves the counter where it was. *)
Definition stalls (s : State) : Prop :=
  exists s1, sweep s = Returned tt s1 /\ unresolved s1 = unresolved s.

Definition parse (fuel : nat) (is_ : string) (overwrite interpolate : bool)
    : M unit :=
  initialization ;;;
  parse_dotenv is_ overwrite ;;;
  (if interpolate then parse_line ;;; resolve_vars fuel else ret tt) ;;;
  expand_escape ;;;
  register_env overwrite ;;;
  errors_flush.

End Engine.

(* ------------------------------------------------------------------ *)
(** ** A small pair of grammars to run the engine on

    Sources are lines [KEY=VALUE]; the variables of the surrounding
    environment come first, as External definitions.  In a value, [${NAME}]
    is a reference and a backslash followed by a character is an escape
    sequence.  The container puts a new key last ([grammars]) or first
    ([grammars_first]). *)

Module Sample.

Definition newline : ascii := "010"%char.
Definition tab : ascii := "009"%char.

Definition snoc (s : string) (c : ascii) : string :=
  (s ++ String c "")%string.

Fixpoint lines (cur cs : string) : list string :=
  match cs with
  | EmptyString => [cur]
  | String c rest =>
      if Ascii.eqb c newline then cur :: lines "" rest
      else lines (snoc cur c) rest
  end.

Fixpoint split_pair (key cs : string) : option (string * string) :=
  match cs with
  | EmptyString => None
  | String c rest =>
      if Ascii.eqb c "="%char then Some (key, rest)
      else split_pair (snoc key c) rest
  end.

Definition definitions (env : list (string * string)) (src : string)
    : list Binding :=
  map (fun kv => (fst kv, snd kv, false)) env ++
  flat_map
    (fun l =>
       match split_pair "" l with
       | Some (k, v) => [(k, v, true)]
       | None => []
       end)
    (lines "" src).

Inductive Mode : Type :=
| InText (acc : string)
| Dollar (acc : string) (p : nat)
| Braces (acc name : string) (p : nat)
| Backslash (acc : string) (p : nat).

Definition text (acc : string) : list Segment :=
  match acc with
  | EmptyString => []
  | _ => [Text acc]
  end.

Definition decode (c : ascii) : string :=
  if Ascii.eqb c "n"%char then String newline ""
  else if Ascii.eqb c "t"%char then String tab ""
  else String c "".

Fixpoint scan (m : Mode) (col : nat) (cs : string) : list Segment :=
  match cs with
  | EmptyString =>
      match m with
      | InText acc => text acc
      | Dollar acc _ => text (snoc acc "$"%char)
      | Braces acc name _ => text (acc ++ "${" ++ name)%string
      | Backslash acc _ => text (snoc acc "\"%char)
      end
  | String c rest =>
      match m with
      | InText acc =>
          if Ascii.eqb c "$"%char then scan (Dollar acc col) (S col) rest
          else if Ascii.eqb c "\"%char then
            scan (Backslash acc col) (S col) rest
          else scan (InText (snoc acc c)) (S col) rest
      | Dollar acc p =>
          if Ascii.eqb c "{"%char then scan (Braces acc "" p) (S col) rest
          else scan (InText (snoc (snoc acc "$"%char) c)) (S col) rest
      | Braces acc name p =>
          if Ascii.eqb c "}"%char then
            text acc ++
            Reference name ("${" ++ name ++ "}")%string 1 p ::
            scan (InText "") (S col) rest
          else scan (Braces acc (snoc name c) p) (S col) rest
      | Backslash acc p =>
          text acc ++
          Escape (decode c) (String "\"%char (String c "")) 1 p ::
          scan (InText "") (S col) rest
      end
  end.

Definition segments (ln : string) : list Segment :=
  scan (InText "") 0 ln.

(** A container that puts every new key last. *)
Definition last_place (k : string) (held : list string) : nat :=
  List.length held.

(** A container that puts every new key first. *)
Definition first_place (k : string) (held : list string) : nat := 0.

Definition grammars (env : list (string * string)) : Grammars :=
  Build_Grammars (definitions env) segments last_place.

(** The same grammars over the other container. *)
Definition grammars_first (env : list (string * string)) : Grammars :=
  Build_Grammars (definitions env) segments first_place.

(** [parse] on these grammars. *)
Definition parse (env : list (string * string)) :=
  @parse (grammars env).

Definition source (ls : list string) : string :=
  String.concat (String newline "") ls.

(** The state a call leaves behind, however it ends. *)
Definition after (o : Outcome unit) : State :=
  match o with
  | Returned _ s => s
  | Thrown s => s
  | OutOfFuel => fresh
  end.

(** Two keys that reference each other. *)
Definition cyclic_source : string := source ["A=${B}"; "B=x${A}"].

(** The same two keys, with the references at other columns. *)
Definition shifted_source : string := source ["A=pre${B}"; "B=${A}"].

(** One key that references itself. *)
Definition self_source : string := source ["C=${C}"].

(** A chain without a cycle. *)
Definition chain_source : string :=
  source ["K1=${K2}"; "K2=${K3}"; "K3=lit"].

(** A [Parser] that has parsed [cyclic_source] once. *)
Definition reused : State := after (parse [] 2 cyclic_source false true fresh).

(** A key whose reference resolves at once, between two plain keys. *)
Definition short_source : string := source ["Z=z"; "A=${B}"; "B=x"].

(** The states the scan phase hands to the resolver for these sources, on
    a fresh parser. *)
Definition chain_scanned : State :=
  after (@scan_phase (grammars []) chain_source false fresh).

Definition short_scanned : State :=
  after (@scan_phase (grammars []) short_source false fresh).

Definition cyclic_scanned : State :=
  after (@scan_phase (grammars []) cyclic_source false fresh).

(** A table with one External and two Local records. *)
Definition mixed : State :=
  mkState 0
    [("HOME", mkSymbolRecord "/root\n" false 0);
     ("A", mkSymbolRecord "a\tb" true 0);
     ("B", mkSymbolRecord "${A}" true 0)]
    [] [] [] [].

(** Two keys without a reference. *)
Definition plain_source : string := source ["Z=z"; "Y=a\tb"].

(** The state [parse] enters [parse_line] in for [chain_source], on a fresh
    parser. *)
Definition chain_raw : State :=
  mkState 0 (@raw_table (grammars []) chain_source false) [] [] [] [].

(** The table of [mixed], under a counter that does not agree with it. *)
Definition idle : State := with_unresolved 1 mixed.


(** No key references itself, directly or through others; but the value of
    [B] and the text after it in the value of [A] spell a reference to [Z]
    once [B] is substituted, and [Z] references [A]. *)
Definition spliced_source : string :=
  source ["A=${B}{Z}${D}"; "B=$"; "D=${C}"; "C=lit"; "Z=${A}"].

Definition spliced_scanned : State :=
  after (@scan_phase (grammars []) spliced_source false fresh).

Definition spliced_rank (k : string) : nat :=
  if String.eqb k "Z" then 2 else if String.eqb k "A" then 1 else 0.

End Sample.

(* ------------------------------------------------------------------ *)
(** ** Vocabulary of the properties *)

(** A record still has work for the resolver: Local and not complete. *)
Definition pending (r : SymbolRecord) : bool := local r && negb (complete r).

(** The number of Local records that are not complete (4.2: the total
    unresolved count). *)
Definition incomplete_locals (t : SymbolsTable) : nat :=
  List.length (filter (fun kr => pending (snd kr)) t).

(** The number of Local records. *)
Definition local_records (t : SymbolsTable) : nat :=
  List.length (filter (fun kr => local (snd kr)) t).

(** The counter agrees with the table, as a [size_t]. *)
Definition counter_ok (s : State) : Prop :=
  unresolved s =
  (N.of_nat (incomplete_locals (symbols_table s)) mod SIZE_MODULUS)%N.

(** The invariant of the resolution phase: the table holds no key twice and
    the counter agrees with it. *)
Definition resolving (s : State) : Prop :=
  NoDup (Table.keys (symbols_table s)) /\ counter_ok s.

(** Every key of the Reference Table has a record in the Symbol Table. *)
Definition references_defined (s : State) : Prop :=
  forall k, In k (Table.keys (references_table s)) ->
            Table.find k (symbols_table s) <> None.

(** The diagnostics the cycle breaker owes for a Reference Table, given the
    Symbol Table: one per entry whose record is not complete. *)
Definition circular_errors (symbols : SymbolsTable) (refs : ReferencesTable)
    : list Diagnostic :=
  flat_map
    (fun kr =>
       match Table.find (fst kr) symbols with
       | Some r =>
           if complete r then []
           else [CircularReferenceError (fst kr) (line (snd kr)) (pos (snd kr))]
       | None => []
       end)
    refs.

(** The [setenv] calls owed for a table: one per Local record. *)
Definition local_calls (overwrite : bool) (t : SymbolsTable)
    : list SetenvCall :=
  map (fun kr => mkSetenvCall (fst kr) (value (snd kr)) overwrite)
      (filter (fun kr => local (snd kr)) t).

(** A call that ended: it returned or left by the exception. *)
Definition terminated {A} (o : Outcome A) : Prop :=
  match o with
  | OutOfFuel => False
  | _ => True
  end.

(** A call that left by the exception. *)
Definition threw {A} (o : Outcome A) : Prop :=
  match o with
  | Thrown _ => True
  | _ => False
  end.

(** What one step of the resolution phase may change: the counter and the
    records that still have work; the keys, the settled records (External or
    complete) and everything outside the Symbol Table stay as they are. *)
Definition resolution_step (s s' : State) : Prop :=
  s' = mkState (unresolved s') (symbols_table s') (references_table s)
         (errors s) (flushed s) (environ_calls s) /\
  Table.keys (symbols_table s') = Table.keys (symbols_table s) /\
  (forall k r, Table.find k (symbols_table s) = Some r -> pending r = false ->
               Table.find k (symbols_table s') = Some r).

Definition b2n (b : bool) : nat := if b then 1 else 0.



(** What the resolver as a whole may change: as [resolution_step], and the
    cycle breaker may add circular-reference records to the sink. *)
Definition resolution_frame (s s' : State) : Prop :=
  Table.keys (symbols_table s') = Table.keys (symbols_table s) /\
  references_table s' = references_table s /\
  flushed s' = flushed s /\
  environ_calls s' = environ_calls s /\
  (forall k r, Table.find k (symbols_table s) = Some r -> pending r = false ->
               Table.find k (symbols_table s') = Some r) /\
  (exists more, errors s' = errors s ++ more /\
                forallb is_circular more = true).

(** What the dependency scan may change besides the records it walks: the
    Reference Table gains only keys that have a record, and the sink gains
    only undefined-variable records. *)
Definition scan_frame (s s' : State) : Prop :=
  Table.keys (symbols_table s') = Table.keys (symbols_table s) /\
  flushed s' = flushed s /\
  environ_calls s' = environ_calls s /\
  (forall k, In k (Table.keys (references_table s')) ->
             In k (Table.keys (references_table s)) \/
             In k (Table.keys (symbols_table s))) /\
  (exists more, errors s' = errors s ++ more /\
                forallb is_undefined more = true).

(** The key and the origin of every record, in table order. *)
Definition origins (t : SymbolsTable) : list (string * bool) :=
  map (fun kr => (fst kr, local (snd kr))) t.

(** What no phase of [parse] after [parse_dotenv] may change: the keys, the
    origin of each record, and the External records altogether. *)
Definition origin_frame (s s' : State) : Prop :=
  origins (symbols_table s') = origins (symbols_table s) /\
  (forall k r, Table.find k (symbols_table s) = Some r -> local r = false ->
               Table.find k (symbols_table s') = Some r).

(** A reference whose target the resolver can substitute now: the target is
    complete, or the key has no record. *)
Definition reference_ready (symbols : SymbolsTable) (seg : Segment) : bool :=
  match seg with
  | Reference k _ _ _ =>
      match Table.find k symbols with
      | Some target => complete target
      | None => true
      end
  | _ => true
  end.

(** A record all of whose references are ready. *)
Definition ready {G : Grammars} (symbols : SymbolsTable) (r : SymbolRecord)
    : bool :=
  forallb (reference_ready symbols) (scanOccurrences (value r)).

Definition is_reference (seg : Segment) : bool :=
  match seg with
  | Reference _ _ _ _ => true
  | _ => false
  end.

(** The text a segment covers, and the text a list of segments spells. *)
Definition raw_text (seg : Segment) : string :=
  match seg with
  | Text raw | Reference _ raw _ _ | Escape _ raw _ _ => raw
  end.

Definition spell (segs : list Segment) : string :=
  fold_right (fun seg rest => (raw_text seg ++ rest)%string) "" segs.

(** A value without a reference, whose segments spell it. *)
Definition plain {G : Grammars} (v : string) : Prop :=
  forallb (fun seg => negb (is_reference seg)) (scanOccurrences v) = true /\
  spell (scanOccurrences v) = v.

(** A source none of whose Local values holds a reference. *)
Definition reference_free {G : Grammars} (t : SymbolsTable) : Prop :=
  forall k r, Table.find k t = Some r -> local r = true -> plain (value r).

(** No record of the table has work for the resolver. *)
Definition settled (t : SymbolsTable) : Prop :=
  forall k r, Table.find k t = Some r -> pending r = false.

(** The records the scan phase starts from: none has a pending reference. *)
Definition unscanned (t : SymbolsTable) : Prop :=
  forall k r, Table.find k t = Some r -> num_depends r = 0.

(** The key a segment refers to. *)
Definition referenced (seg : Segment) : option string :=
  match seg with
  | Reference k _ _ _ => Some k
  | _ => None
  end.

(** [k] waits for [k']: the record of [k] has work for the resolver, its
    value holds a reference to [k'], and the record of [k'] is not
    complete. *)
Definition waits_for {G : Grammars} (t : SymbolsTable) (k k' : string)
    : Prop :=
  exists r r',
    Table.find k t = Some r /\ pending r = true /\
    In (Some k') (map referenced (scanOccurrences (value r))) /\
    Table.find k' t = Some r' /\ complete r' = false.

(** A cycle of references in a table: a key that waits for itself, directly
    or through other keys. *)
Definition cycle {G : Grammars} (t : SymbolsTable) : Prop :=
  exists k, clos_trans string (waits_for t) k k.



(** The undefined-variable records the dependency scan owes for the
    segments of one value: one per reference to a key without a record, in
    the order of the segments ... *)
Definition undefined_errors (symbols : SymbolsTable) (segs : list Segment)
    : list Diagnostic :=
  flat_map
    (fun seg =>
       match seg with
       | Reference k _ l p =>
           match Table.find k symbols with
           | None => [UndefinedVariableError k l p]
           | Some _ => []
           end
       | _ => []
       end)
    segs.

(** ... and for a table: those of the values of its Local records, in table
    order. *)
Definition scan_errors {G : Grammars} (t : SymbolsTable) : list Diagnostic :=
  flat_map
    (fun kr =>
       if local (snd kr)
       then undefined_errors t (scanOccurrences (value (snd kr)))
       else [])
    t.

(* ------------------------------------------------------------------ *)
(** ** Facts about [size_t] and tables *)

Unset Implicit Arguments.

Lemma SIZE_MODULUS_gt_1 : (1 < SIZE_MODULUS)%N.
Proof. reflexivity. Qed.

Lemma mod_pred (m n : N) :
  (1 < m)%N -> (1 <= n)%N ->
  ((if (n mod m =? 0)%N then m - 1 else n mod m - 1) = (n - 1) mod m)%N.
Proof.
  intros Hm Hn.
  assert (Hm0 : m <> 0%N) by lia.
  pose proof (N.Div0.div_mod n m) as Hdiv.
  pose proof (N.mod_lt n m Hm0) as Hlt.
  destruct (N.eqb_spec (n mod m) 0) as [E | E].
  - apply N.mod_unique with (q := (n / m - 1)%N); [lia |].
    remember (n / m)%N as q eqn:Eq. clear Eq.
    assert (Hq : q <> 0%N) by (intros Hq; rewrite Hq in Hdiv; lia).
    replace q with ((q - 1) + 1)%N in Hdiv by lia.
    rewrite N.mul_add_distr_l in Hdiv. lia.
  - apply N.mod_unique with (q := (n / m)%N); [lia |].
    remember (n / m)%N as q eqn:Eq. clear Eq.
    remember (n mod m)%N as r eqn:Er. clear Er. lia.
Qed.

Lemma size_decr_count (c : nat) :
  1 <= c ->
  size_decr (N.of_nat c mod SIZE_MODULUS) = (N.of_nat (c - 1) mod SIZE_MODULUS)%N.
Proof.
  intros Hc. unfold size_decr.
  replace (N.of_nat (c - 1)) with (N.of_nat c - 1)%N by lia.
  rewrite <- (mod_pred SIZE_MODULUS (N.of_nat c)) by
    (try apply SIZE_MODULUS_gt_1; lia).
  reflexivity.
Qed.

Lemma size_incr_count (c : nat) :
  size_incr (N.of_nat c mod SIZE_MODULUS) = (N.of_nat (S c) mod SIZE_MODULUS)%N.
Proof.
  unfold size_incr.
  replace (N.of_nat (S c)) with (N.of_nat c + 1)%N by lia.
  rewrite N.Div0.add_mod_idemp_l. reflexivity.
Qed.

Lemma size_decr_positive (u : N) : (0 < u)%N -> size_decr u = (u - 1)%N.
Proof.
  intros H. unfold size_decr.
  destruct (N.eqb_spec u 0); [lia | reflexivity].
Qed.

Lemma count_mod_le (c : nat) : (N.of_nat c mod SIZE_MODULUS <= N.of_nat c)%N.
Proof. apply N.Div0.mod_le. Qed.

Section TableFacts.
Context {V : Type}.
Implicit Types (m : Table.t V) (k : string) (f : V -> V).

Lemma find_update_same k f m :
  Table.find k (Table.update k f m) = option_map f (Table.find k m).
Proof.
  induction m as [| [k' v] rest IH]; simpl; [reflexivity |].
  destruct (String.eqb_spec k k') as [-> | Hne]; simpl.
  - rewrite String.eqb_refl. reflexivity.
  - destruct (String.eqb_spec k k'); [contradiction | exact IH].
Qed.

Lemma find_update_other k k' f m :
  k <> k' -> Table.find k' (Table.update k f m) = Table.find k' m.
Proof.
  intros Hne.
  induction m as [| [k0 v] rest IH]; simpl; [reflexivity |].
  destruct (String.eqb_spec k k0) as [-> | Hk]; simpl.
  - destruct (String.eqb_spec k' k0); [congruence | reflexivity].
  - rewrite IH. reflexivity.
Qed.

Lemma keys_update k f m : Table.keys (Table.update k f m) = Table.keys m.
Proof.
  induction m as [| [k' v] rest IH]; simpl; [reflexivity |].
  destruct (String.eqb k k'); simpl; [reflexivity |].
  f_equal. exact IH.
Qed.

Lemma length_update k f m : List.length (Table.update k f m) = List.length m.
Proof.
  rewrite <- (List.length_map fst), <- (List.length_map fst m).
  exact (f_equal (@List.length string) (keys_update k f m)).
Qed.

Lemma find_some_in_keys k m :
  Table.find k m <> None <-> In k (Table.keys m).
Proof.
  induction m as [| [k' v] rest IH]; simpl.
  - split; [congruence | tauto].
  - destruct (String.eqb_spec k k') as [-> | Hne].
    + split; [auto | congruence].
    + rewrite IH. split; [auto | intros [E | H]; congruence || exact H].
Qed.

Lemma find_none_not_in_keys k m :
  Table.find k m = None <-> ~ In k (Table.keys m).
Proof.
  rewrite <- find_some_in_keys.
  destruct (Table.find k m); split; intros H; try congruence.
  exfalso. apply H. discriminate.
Qed.

Lemma in_keys_find k m :
  In k (Table.keys m) -> exists v, Table.find k m = Some v.
Proof.
  intros H. apply find_some_in_keys in H.
  destruct (Table.find k m) as [v |]; [eauto | congruence].
Qed.

Lemma find_of_entry k v m :
  NoDup (Table.keys m) -> In (k, v) m -> Table.find k m = Some v.
Proof.
  induction m as [| [k' v'] rest IH]; simpl; [tauto |].
  intros Hnd [E | Hin].
  - inversion E; subst. rewrite String.eqb_refl. reflexivity.
  - inversion Hnd as [| ? ? Hnotin Hnd']; subst.
    destruct (String.eqb_spec k k') as [-> | Hne].
    + exfalso. apply Hnotin. change (In (fst (k', v)) (map fst rest)).
      apply in_map. exact Hin.
    + apply IH; assumption.
Qed.

Lemma find_app k m1 m2 :
  Table.find k (m1 ++ m2) =
  match Table.find k m1 with
  | Some v => Some v
  | None => Table.find k m2
  end.
Proof.
  induction m1 as [| [k' v] rest IH]; simpl; [reflexivity |].
  destruct (String.eqb k k'); [reflexivity | exact IH].
Qed.

Lemma keys_app m1 m2 :
  Table.keys (m1 ++ m2) = Table.keys m1 ++ Table.keys m2.
Proof. apply map_app. Qed.

Lemma put_permutation i (kv : string * V) m :
  Permutation (Table.put i kv m) (kv :: m).
Proof.
  unfold Table.put. rewrite <- (firstn_skipn i m) at 3.
  symmetry. apply Permutation_middle.
Qed.

Lemma keys_put i (kv : string * V) m k' :
  In k' (Table.keys (Table.put i kv m)) <-> k' = fst kv \/ In k' (Table.keys m).
Proof.
  unfold Table.keys.
  split; intros H.
  - apply (Permutation_in _ (Permutation_map fst (put_permutation i kv m)))
      in H.
    simpl in H. intuition.
  - apply (Permutation_in _
             (Permutation_sym (Permutation_map fst (put_permutation i kv m)))).
    simpl. intuition.
Qed.

Lemma find_put i k (v : V) m k' :
  Table.find k m = None ->
  Table.find k' (Table.put i (k, v) m) =
  if String.eqb k' k then Some v else Table.find k' m.
Proof.
  intros Hfind. unfold Table.put.
  rewrite <- (firstn_skipn i m) at 3.
  rewrite !find_app. simpl.
  destruct (String.eqb_spec k' k) as [-> | Hne]; [| reflexivity].
  rewrite <- (firstn_skipn i m), find_app in Hfind.
  destruct (Table.find k (firstn i m)); [discriminate | reflexivity].
Qed.

Lemma keys_emplace_incl place k v m k' :
  In k' (Table.keys (Table.emplace place k v m)) ->
  k' = k \/ In k' (Table.keys m).
Proof.
  unfold Table.emplace. destruct (Table.find k m); [auto |].
  intros H. apply keys_put in H. exact H.
Qed.

Lemma nodup_assign place k v m :
  NoDup (Table.keys m) -> NoDup (Table.keys (Table.assign place k v m)).
Proof.
  intros Hnd. unfold Table.assign.
  destruct (Table.find k m) eqn:E.
  - rewrite keys_update. exact Hnd.
  - apply find_none_not_in_keys in E.
    apply (Permutation_NoDup
             (Permutation_sym
                (Permutation_map fst (put_permutation _ (k, v) m)))).
    simpl. constructor; assumption.
Qed.

Lemma length_assign_le place k v m :
  List.length (Table.assign place k v m) <= S (List.length m).
Proof.
  unfold Table.assign. destruct (Table.find k m).
  - rewrite length_update. lia.
  - rewrite (Permutation_length (put_permutation _ (k, v) m)). simpl. lia.
Qed.

Lemma find_assign place k v m k' :
  Table.find k' (Table.assign place k v m) =
  if String.eqb k' k then Some v else Table.find k' m.
Proof.
  unfold Table.assign.
  destruct (Table.find k m) as [v0 |] eqn:Hfind.
  - destruct (String.eqb_spec k' k) as [-> | Hne].
    + rewrite find_update_same, Hfind. reflexivity.
    + apply find_update_other. congruence.
  - apply find_put. exact Hfind.
Qed.

Lemma held_in_spec D (kv : string * V) :
  Table.held_in D kv = true <-> In (fst kv) D.
Proof.
  unfold Table.held_in. rewrite existsb_exists. split.
  - intros (x & Hin & E). apply String.eqb_eq in E. congruence.
  - intros Hin. exists (fst kv). split; [exact Hin | apply String.eqb_refl].
Qed.

Lemma target_split k (v : V) target :
  NoDup (Table.keys target) -> In (k, v) target ->
  exists rest,
    target = Table.before k target ++ (k, v) :: rest /\
    ~ In k (Table.keys (Table.before k target)) /\ ~ In k (Table.keys rest).
Proof.
  induction target as [| [k' v'] rest IH]; simpl; [tauto |].
  intros Hnd Hin. inversion Hnd as [| ? ? Hnotin Hnd']; subst.
  destruct (String.eqb_spec k k') as [-> | Hne].
  - exists rest. destruct Hin as [E | Hin].
    + inversion E; subst. simpl. auto.
    + exfalso. apply Hnotin. change (In (fst (k', v)) (map fst rest)).
      apply in_map. exact Hin.
  - destruct Hin as [E | Hin]; [inversion E; congruence |].
    destruct (IH Hnd' Hin) as (rest' & E & H1 & H2).
    exists rest'. simpl. split; [f_equal; exact E |].
    split; [intros [E' | H]; [congruence | exact (H1 H)] | exact H2].
Qed.

Lemma filter_held_cons D k (l : Table.t V) :
  ~ In k (Table.keys l) ->
  filter (Table.held_in (k :: D)) l = filter (Table.held_in D) l.
Proof.
  intros Hnotin. apply filter_ext_in. intros kv Hin.
  unfold Table.held_in. simpl.
  destruct (String.eqb_spec (fst kv) k) as [E | _]; [| reflexivity].
  exfalso. apply Hnotin. rewrite <- E. apply in_map. exact Hin.
Qed.

Lemma keys_filter_held D (l : Table.t V) k :
  In k (Table.keys (filter (Table.held_in D) l)) -> In k D.
Proof.
  unfold Table.keys. rewrite in_map_iff. intros (kv & <- & Hin).
  apply filter_In in Hin. apply held_in_spec. exact (proj2 Hin).
Qed.

Lemma put_as k (v : V) D target :
  NoDup (Table.keys target) -> In (k, v) target -> ~ In k D ->
  Table.emplace (Table.place_as target) k v
    (filter (Table.held_in D) target) =
  filter (Table.held_in (k :: D)) target.
Proof.
  intros Hnd Hin Hnew.
  destruct (target_split k v target Hnd Hin) as (rest & E & Hb & Hr).
  unfold Table.emplace.
  destruct (Table.find k (filter (Table.held_in D) target)) eqn:Hfind.
  { exfalso. apply Hnew. apply (keys_filter_held D target).
    apply find_some_in_keys. congruence. }
  unfold Table.place_as, Table.put.
  assert (Hsame :
            filter
              (Table.held_in (Table.keys (filter (Table.held_in D) target)))
              (Table.before k target) =
            filter (Table.held_in D) (Table.before k target)).
  { apply filter_ext_in. intros kv Hkv.
    apply eq_true_iff_eq. rewrite !held_in_spec. split.
    - apply keys_filter_held.
    - intros HD. unfold Table.keys. apply in_map. apply filter_In.
      split; [| apply held_in_spec; exact HD].
      rewrite E. apply in_or_app. left. exact Hkv. }
  rewrite Hsame. clear Hsame Hfind.
  remember (Table.before k target) as B eqn:HB. clear HB.
  subst target. rewrite !filter_app. simpl.
  assert (Hk : Table.held_in D (k, v) = false).
  { destruct (Table.held_in D (k, v)) eqn:Hh; [| reflexivity].
    apply held_in_spec in Hh. contradiction. }
  rewrite Hk, String.eqb_refl. simpl.
  rewrite firstn_app, Nat.sub_diag, firstn_all. simpl. rewrite app_nil_r.
  rewrite skipn_app, Nat.sub_diag, skipn_all. simpl.
  rewrite !filter_held_cons by assumption. reflexivity.
Qed.

(** Whatever order the keys of a table are to be iterated in, some
    placement builds the table in that order. *)
Lemma every_order (entries target : Table.t V) :
  NoDup (Table.keys entries) -> Permutation entries target ->
  fold_left
    (fun m kv => Table.emplace (Table.place_as target) (fst kv) (snd kv) m)
    entries [] = target.
Proof.
  intros Hnd Hperm.
  assert (Hndt : NoDup (Table.keys target)).
  { apply (Permutation_NoDup (Permutation_map fst Hperm)). exact Hnd. }
  assert (Hgen : forall todo D,
            NoDup (Table.keys todo) ->
            (forall kv, In kv todo -> In kv target /\ ~ In (fst kv) D) ->
            fold_left
              (fun m kv =>
                 Table.emplace (Table.place_as target) (fst kv) (snd kv) m)
              todo (filter (Table.held_in D) target) =
            filter (Table.held_in (rev (Table.keys todo) ++ D)) target).
  { induction todo as [| [k v] rest IH]; intros D Hnd' Hin; simpl;
      [reflexivity |].
    inversion Hnd' as [| ? ? Hnotin Hnd'']; subst.
    destruct (Hin (k, v) (or_introl eq_refl)) as [Ht HD]. simpl in HD.
    rewrite (put_as k v D target Hndt Ht HD).
    rewrite IH; [| exact Hnd'' |].
    - rewrite <- app_assoc. reflexivity.
    - intros kv Hkv. destruct (Hin kv (or_intror Hkv)) as [H1 H2].
      split; [exact H1 |]. intros [E | H]; [| exact (H2 H)].
      apply Hnotin. rewrite E. apply in_map. exact Hkv. }
  specialize (Hgen entries [] Hnd).
  assert (Hempty : filter (Table.held_in []) target = []).
  { clear.
    induction target as [| kv rest IH]; simpl; [reflexivity | exact IH]. }
  rewrite Hempty in Hgen. rewrite Hgen.
  - rewrite app_nil_r.
    rewrite <- (filter_ext_in (fun _ => true)).
    + clear. induction target; simpl; congruence.
    + intros kv Hkv. symmetry. apply held_in_spec. apply in_rev.
      rewrite rev_involutive. apply in_map.
      apply (Permutation_in _ (Permutation_sym Hperm)). exact Hkv.
  - intros kv Hkv.
    split; [apply (Permutation_in _ Hperm); exact Hkv | tauto].
Qed.
End TableFacts.

(* ------------------------------------------------------------------ *)
(** ** Counting the records that still have work *)

Lemma incomplete_update key (f : SymbolRecord -> SymbolRecord) t r :
  Table.find key t = Some r ->
  incomplete_locals (Table.update key f t) + b2n (pending r) =
  incomplete_locals t + b2n (pending (f r)).
Proof.
  unfold incomplete_locals.
  induction t as [| [k' v] rest IH]; simpl; [discriminate |].
  destruct (String.eqb_spec key k') as [-> | Hne]; intros Hfind.
  - inversion Hfind; subst. simpl.
    destruct (pending r), (pending (f r)); simpl; lia.
  - specialize (IH Hfind). simpl.
    destruct (pending v); simpl; lia.
Qed.

Lemma incomplete_le_local t : incomplete_locals t <= local_records t.
Proof.
  unfold incomplete_locals, local_records, pending.
  induction t as [| [k r] rest IH]; simpl; [lia |].
  destruct (local r); simpl; [| exact IH].
  destruct (negb (complete r)); simpl; lia.
Qed.

Lemma local_le_length t : local_records t <= List.length t.
Proof. unfold local_records. apply filter_length_le. Qed.

Lemma filter_none {A} (f : A -> bool) (l : list A) :
  (forall x, In x l -> f x = false) -> filter f l = [].
Proof.
  induction l as [| a l IH]; simpl; intros H; [reflexivity |].
  rewrite (H a (or_introl eq_refl)). apply IH. intros x Hx. apply H. auto.
Qed.

Lemma incomplete_none t :
  NoDup (Table.keys t) ->
  (forall k r, Table.find k t = Some r -> pending r = false) ->
  incomplete_locals t = 0.
Proof.
  intros Hnd Hall. unfold incomplete_locals.
  rewrite filter_none; [reflexivity |].
  intros [k r] Hin. simpl.
  apply (Hall k r). apply find_of_entry; assumption.
Qed.

(* ------------------------------------------------------------------ *)
(** ** The engine *)

Section EngineFacts.
Context {G : Grammars}.

Lemma resolve_symbol_settled key s r :
  Table.find key (symbols_table s) = Some r -> pending r = false ->
  resolve_symbol key s = Returned false s.
Proof.
  intros Hfind Hp. unfold resolve_symbol, bind, symbol_at.
  rewrite Hfind. unfold pending in Hp. rewrite Hp. reflexivity.
Qed.

Lemma resolve_symbol_pending key s r :
  Table.find key (symbols_table s) = Some r -> pending r = true ->
  exists out remaining,
    walk_line (value r) (substitute false (symbols_table s)) ("", 0) =
      (out, remaining) /\
    let u' := if Nat.eqb remaining 0 then size_decr (unresolved s)
              else unresolved s in
    resolve_symbol key s =
    Returned (u' =? 0)%N
      (mkState u'
         (Table.update key (fun r => mkSymbolRecord out (local r) remaining)
            (symbols_table s))
         (references_table s) (errors s) (flushed s) (environ_calls s)).
Proof.
  intros Hfind Hp. unfold resolve_symbol, bind, symbol_at.
  rewrite Hfind. unfold pending in Hp. rewrite Hp.
  unfold ResolverListener, modify.
  destruct (walk_line (value r) (substitute false (symbols_table s)) ("", 0))
    as [out remaining] eqn:Hwalk.
  exists out, remaining. split; [reflexivity |].
  unfold deref, gets. simpl.
  rewrite find_update_same, Hfind. simpl. unfold complete. simpl.
  destruct (Nat.eqb remaining 0); reflexivity.
Qed.

Lemma resolution_step_refl s : resolution_step s s.
Proof.
  unfold resolution_step. destruct s; simpl. auto.
Qed.

Lemma resolution_step_trans s1 s2 s3 :
  resolution_step s1 s2 -> resolution_step s2 s3 -> resolution_step s1 s3.
Proof.
  intros (E1 & K1 & F1) (E2 & K2 & F2). unfold resolution_step.
  split; [| split].
  - rewrite E2 at 1. rewrite E1. simpl. reflexivity.
  - congruence.
  - intros k r Hf Hp. apply F2; [apply F1 |]; assumption.
Qed.

Lemma update_pending_step key f s r u' :
  Table.find key (symbols_table s) = Some r -> pending r = true ->
  resolution_step s
    (mkState u' (Table.update key f (symbols_table s)) (references_table s)
       (errors s) (flushed s) (environ_calls s)).
Proof.
  intros Hfind Hp. unfold resolution_step. simpl.
  split; [reflexivity | split; [apply keys_update |]].
  intros k r0 Hk Hp0.
  destruct (String.eqb_spec key k) as [-> | Hne].
  - congruence.
  - rewrite find_update_other by assumption. exact Hk.
Qed.

(** Walking a record that has work keeps the invariant, whatever the walk
    leaves pending, as long as the counter is decremented exactly when the
    record becomes complete. *)
Lemma resolving_update key s r out remaining :
  resolving s ->
  Table.find key (symbols_table s) = Some r -> pending r = true ->
  resolving
    (mkState
       (if Nat.eqb remaining 0 then size_decr (unresolved s)
        else unresolved s)
       (Table.update key (fun r => mkSymbolRecord out (local r) remaining)
          (symbols_table s))
       (references_table s) (errors s) (flushed s) (environ_calls s)).
Proof.
  intros [Hnd Hc] Hfind Hp. unfold resolving, counter_ok in *. simpl.
  split; [rewrite keys_update; exact Hnd |].
  pose proof (incomplete_update key
                (fun r => mkSymbolRecord out (local r) remaining)
                (symbols_table s) r Hfind) as Hcount.
  rewrite Hp in Hcount. unfold pending in Hp, Hcount. simpl in Hcount.
  apply andb_prop in Hp. destruct Hp as [Hl _]. rewrite Hl in Hcount.
  unfold complete in Hcount. simpl in Hcount.
  destruct (Nat.eqb remaining 0); simpl in Hcount.
  - rewrite Hc, size_decr_count by lia. f_equal. f_equal. lia.
  - rewrite Hc. f_equal. f_equal. lia.
Qed.

Lemma counter_positive_bound s :
  counter_ok s ->
  (unresolved s <= N.of_nat (incomplete_locals (symbols_table s)))%N.
Proof. intros ->. apply count_mod_le. Qed.

(** The counter never exceeds the number of Local records, nor the size of
    the table. *)
Lemma unresolved_bound s :
  resolving s ->
  N.to_nat (unresolved s) <= local_records (symbols_table s) /\
  N.to_nat (unresolved s) <= List.length (symbols_table s).
Proof.
  intros [_ Hc].
  pose proof (counter_positive_bound s Hc).
  pose proof (incomplete_le_local (symbols_table s)).
  pose proof (local_le_length (symbols_table s)). lia.
Qed.

Lemma resolve_symbol_step key s :
  In key (Table.keys (symbols_table s)) -> resolving s ->
  (0 < unresolved s)%N ->
  exists s',
    resolve_symbol key s = Returned (unresolved s' =? 0)%N s' /\
    resolution_step s s' /\ resolving s' /\
    (unresolved s' <= unresolved s)%N /\
    ((unresolved s' < unresolved s)%N ->
     exists r r', Table.find key (symbols_table s) = Some r /\
                  pending r = true /\
                  Table.find key (symbols_table s') = Some r' /\
                  complete r' = true).
Proof.
  intros Hin Hinv Hpos.
  destruct (in_keys_find _ _ Hin) as [r Hfind].
  destruct (pending r) eqn:Hp.
  - destruct (resolve_symbol_pending key s r Hfind Hp)
      as (out & remaining & _ & Hrun).
    simpl in Hrun.
    match type of Hrun with _ = Returned _ ?st => exists st end.
    split; [exact Hrun |]. simpl.
    split; [eapply update_pending_step; eassumption |].
    split; [apply resolving_update with (r := r); assumption |].
    destruct (Nat.eqb remaining 0) eqn:Hrem.
    + rewrite size_decr_positive by assumption.
      split; [lia |]. intros _. exists r.
      eexists. split; [exact Hfind | split; [exact Hp |]].
      rewrite find_update_same, Hfind. simpl.
      split; [reflexivity | exact Hrem].
    + split; lia.
  - exists s. rewrite (resolve_symbol_settled key s r Hfind Hp).
    replace (unresolved s =? 0)%N with false
      by (symmetry; apply N.eqb_neq; lia).
    split; [reflexivity |].
    split; [apply resolution_step_refl |].
    split; [assumption |]. split; lia.
Qed.

Lemma pending_before s s1 k r1 :
  resolution_step s s1 ->
  Table.find k (symbols_table s1) = Some r1 -> pending r1 = true ->
  exists r0, Table.find k (symbols_table s) = Some r0 /\ pending r0 = true.
Proof.
  intros (_ & Hkeys & Hkept) Hfind Hp.
  assert (Hin : In k (Table.keys (symbols_table s))).
  { rewrite <- Hkeys. apply find_some_in_keys. congruence. }
  destruct (in_keys_find _ _ Hin) as [r0 Hr0].
  exists r0. split; [exact Hr0 |].
  destruct (pending r0) eqn:Hp0; [reflexivity |].
  specialize (Hkept k r0 Hr0 Hp0). congruence.
Qed.

Lemma complete_not_pending r : complete r = true -> pending r = false.
Proof.
  intros H. unfold pending. rewrite H. apply andb_false_r.
Qed.

Lemma resolve_sweep_spec ks :
  forall s,
    incl ks (Table.keys (symbols_table s)) -> resolving s ->
    (0 < unresolved s)%N ->
    exists s',
      resolve_sweep ks s = Returned tt s' /\
      resolution_step s s' /\ resolving s' /\
      (unresolved s' <= unresolved s)%N /\
      ((unresolved s' < unresolved s)%N ->
       exists k r r', In k ks /\
                      Table.find k (symbols_table s) = Some r /\
                      pending r = true /\
                      Table.find k (symbols_table s') = Some r' /\
                      complete r' = true).
Proof.
  induction ks as [| key rest IH]; intros s Hincl Hinv Hpos.
  - exists s. simpl. unfold ret.
    split; [reflexivity |]. split; [apply resolution_step_refl |].
    split; [assumption |]. split; lia.
  - destruct (resolve_symbol_step key s (Hincl key (or_introl eq_refl))
                Hinv Hpos) as (s1 & Hrun & Hstep & Hinv1 & Hle & Hdone).
    simpl. unfold bind. rewrite Hrun.
    destruct (N.eqb_spec (unresolved s1) 0) as [Hz | Hnz].
    + exists s1. unfold ret. split; [reflexivity |].
      split; [assumption |]. split; [assumption |]. split; [assumption |].
      intros Hlt. destruct (Hdone Hlt) as (r & r' & H1 & H2 & H3 & H4).
      exists key, r, r'. simpl. auto.
    + assert (Hincl1 : incl rest (Table.keys (symbols_table s1))).
      { destruct Hstep as (_ & Hkeys & _). rewrite Hkeys.
        intros k Hk. apply Hincl. right. exact Hk. }
      destruct (IH s1 Hincl1 Hinv1 ltac:(lia))
        as (s2 & Hrun2 & Hstep2 & Hinv2 & Hle2 & Hdone2).
      exists s2. split; [exact Hrun2 |].
      split; [eapply resolution_step_trans; eassumption |].
      split; [assumption |]. split; [lia |].
      intros Hlt.
      destruct (N.ltb_spec (unresolved s1) (unresolved s)) as [Hlt1 | Hge1].
      * destruct (Hdone Hlt1) as (r & r' & H1 & H2 & H3 & H4).
        exists key, r, r'. simpl.
        split; [auto |]. split; [assumption |]. split; [assumption |].
        split; [| assumption].
        destruct Hstep2 as (_ & _ & Hkept). apply Hkept; [assumption |].
        apply complete_not_pending. assumption.
      * destruct (Hdone2 ltac:(lia)) as (k & r1 & r' & H0 & H1 & H2 & H3 & H4).
        destruct (pending_before s s1 k r1 Hstep H1 H2) as (r0 & Hr0 & Hp0).
        exists k, r0, r'. simpl. auto 6.
Qed.

Lemma force_symbol_step key s :
  In key (Table.keys (symbols_table s)) -> resolving s ->
  exists s',
    force_symbol key s = Returned tt s' /\
    resolution_step s s' /\ resolving s' /\
    (forall r, Table.find key (symbols_table s') = Some r ->
               pending r = false).
Proof.
  intros Hin Hinv.
  destruct (in_keys_find _ _ Hin) as [r Hfind].
  unfold force_symbol, bind, symbol_at. rewrite Hfind.
  fold (pending r). destruct (pending r) eqn:Hp.
  - unfold UnresolvedListener, modify.
    destruct (walk_line (value r) (substitute true (symbols_table s)) ("", 0))
      as [out n].
    unfold deref, gets. simpl.
    rewrite find_update_same, Hfind. simpl.
    unfold decr_unresolved, modify, with_unresolved. simpl.
    eexists. split; [reflexivity |].
    split; [eapply update_pending_step; eassumption |].
    split; [exact (resolving_update key s r out 0 Hinv Hfind Hp) |].
    simpl. rewrite find_update_same, Hfind. simpl.
    intros r0 E. inversion E. unfold pending. simpl. apply andb_false_r.
  - exists s. unfold ret. split; [reflexivity |].
    split; [apply resolution_step_refl |]. split; [assumption |].
    intros r0 E. congruence.
Qed.

Lemma force_loop_spec ks :
  forall s,
    incl ks (Table.keys (symbols_table s)) -> resolving s ->
    exists s',
      for_each force_symbol ks s = Returned tt s' /\
      resolution_step s s' /\ resolving s' /\
      (forall k r, In k ks -> Table.find k (symbols_table s') = Some r ->
                   pending r = false).
Proof.
  induction ks as [| key rest IH]; intros s Hincl Hinv.
  - exists s. simpl. unfold ret. split; [reflexivity |].
    split; [apply resolution_step_refl |]. split; [assumption |].
    intros k r [].
  - destruct (force_symbol_step key s (Hincl key (or_introl eq_refl)) Hinv)
      as (s1 & Hrun & Hstep & Hinv1 & Hdone).
    assert (Hincl1 : incl rest (Table.keys (symbols_table s1))).
    { destruct Hstep as (_ & Hkeys & _). rewrite Hkeys.
      intros k Hk. apply Hincl. right. exact Hk. }
    destruct (IH s1 Hincl1 Hinv1) as (s2 & Hrun2 & Hstep2 & Hinv2 & Hdone2).
    exists s2. simpl. unfold bind. rewrite Hrun.
    split; [exact Hrun2 |].
    split; [eapply resolution_step_trans; eassumption |].
    split; [assumption |].
    intros k r [<- | Hk] Hfind; [| eapply Hdone2; eassumption].
    destruct (pending r) eqn:Hp; [| reflexivity].
    destruct (pending_before s1 s2 key r Hstep2 Hfind Hp) as (r0 & Hr0 & Hp0).
    rewrite (Hdone r0 Hr0) in Hp0. discriminate.
Qed.

Lemma resolve_unresolved_vars_spec s :
  resolving s ->
  exists s',
    resolve_unresolved_vars s = Returned tt s' /\
    resolution_step s s' /\ resolving s' /\ unresolved s' = 0%N /\
    (forall k r, Table.find k (symbols_table s') = Some r ->
                 pending r = false).
Proof.
  intros Hinv.
  destruct (force_loop_spec (Table.keys (symbols_table s)) s
              (incl_refl _) Hinv) as (s' & Hrun & Hstep & Hinv' & Hdone).
  assert (Hall : forall k r, Table.find k (symbols_table s') = Some r ->
                             pending r = false).
  { intros k r Hfind. apply (Hdone k r); [| exact Hfind].
    destruct Hstep as (_ & Hkeys & _). rewrite <- Hkeys.
    apply find_some_in_keys. congruence. }
  exists s'. split; [exact Hrun |]. split; [assumption |].
  split; [assumption |]. split; [| exact Hall].
  destruct Hinv' as [Hnd Hc]. rewrite Hc.
  rewrite (incomplete_none _ Hnd Hall). reflexivity.
Qed.

(** *** The cycle breaker *)

Lemma with_errors_app s e1 e2 :
  with_errors (errors (with_errors (errors s ++ e1) s) ++ e2)
              (with_errors (errors s ++ e1) s) =
  with_errors (errors s ++ e1 ++ e2) s.
Proof. unfold with_errors. simpl. rewrite app_assoc. reflexivity. Qed.

Lemma report_loop_returns refs :
  forall s,
    (forall k, In k (Table.keys refs) ->
               Table.find k (symbols_table s) <> None) ->
    for_each report_reference refs s =
    Returned tt
      (with_errors (errors s ++ circular_errors (symbols_table s) refs) s).
Proof.
  induction refs as [| [k rr] rest IH]; intros s Hdef.
  - simpl. unfold ret, with_errors. rewrite app_nil_r.
    destruct s; reflexivity.
  - assert (Hk : Table.find k (symbols_table s) <> None)
      by (apply Hdef; left; reflexivity).
    simpl. unfold bind at 1. unfold report_reference, bind, symbol_at.
    destruct (Table.find k (symbols_table s)) as [r |] eqn:Hfind;
      [| congruence].
    simpl. destruct (complete r); simpl.
    + unfold ret. apply IH. intros k' Hk'. apply Hdef. right. exact Hk'.
    + unfold circular_reference_error, modify.
      rewrite IH by (intros k' Hk'; apply Hdef; right; exact Hk').
      f_equal. apply with_errors_app.
Qed.

Lemma report_loop_throws refs :
  forall s k,
    In k (Table.keys refs) -> Table.find k (symbols_table s) = None ->
    exists st,
      for_each report_reference refs s = Thrown st /\
      unresolved st = unresolved s /\
      symbols_table st = symbols_table s /\
      flushed st = flushed s /\ environ_calls st = environ_calls s.
Proof.
  induction refs as [| [k0 rr] rest IH]; intros s k Hin Hnone;
    [destruct Hin |].
  simpl. unfold bind at 1. unfold report_reference, bind, symbol_at.
  destruct (Table.find k0 (symbols_table s)) as [r |] eqn:Hfind.
  - assert (Hrest : In k (Table.keys rest)).
    { destruct Hin as [E | H]; [| exact H]. simpl in E. congruence. }
    destruct (complete r); simpl.
    + unfold ret. eapply IH; eassumption.
    + unfold circular_reference_error, modify.
      destruct (IH (with_errors
                      (errors s ++
                       [CircularReferenceError k0 (line rr) (pos rr)]) s)
                   k Hrest Hnone) as (st & Hrun & H1 & H2 & H3 & H4).
      exists st. auto.
  - exists s. auto.
Qed.

Lemma references_defined_dec s :
  references_defined s \/
  exists k, In k (Table.keys (references_table s)) /\
            Table.find k (symbols_table s) = None.
Proof.
  unfold references_defined.
  induction (Table.keys (references_table s)) as [| k ks IH].
  - left. intros k [].
  - destruct (Table.find k (symbols_table s)) eqn:Hfind.
    + destruct IH as [IH | (k' & Hin & Hnone)].
      * left. intros k' [<- | Hk']; [congruence | auto].
      * right. exists k'. simpl. auto.
    + right. exists k. simpl. auto.
Qed.

Lemma report_unresolved_vars_returns s :
  references_defined s ->
  report_unresolved_vars s =
  Returned tt
    (with_errors
       (errors s ++ circular_errors (symbols_table s) (references_table s))
       s).
Proof. intros H. apply report_loop_returns. exact H. Qed.

Lemma circular_errors_are_circular symbols refs :
  forallb is_circular (circular_errors symbols refs) = true.
Proof.
  unfold circular_errors.
  induction refs as [| [k rr] rest IH]; simpl; [reflexivity |].
  destruct (Table.find k symbols) as [r |]; simpl; [| exact IH].
  destruct (complete r); simpl; exact IH.
Qed.

Lemma resolution_step_frame s s' :
  resolution_step s s' -> resolution_frame s s'.
Proof.
  intros (E & Hkeys & Hkept). unfold resolution_frame.
  rewrite E. simpl. repeat split; try assumption; try reflexivity.
  exists []. rewrite app_nil_r. split; reflexivity.
Qed.

Lemma resolution_frame_refl s : resolution_frame s s.
Proof. apply resolution_step_frame, resolution_step_refl. Qed.

Lemma resolution_frame_trans s1 s2 s3 :
  resolution_frame s1 s2 -> resolution_frame s2 s3 ->
  resolution_frame s1 s3.
Proof.
  intros (K1 & R1 & F1 & C1 & S1 & m1 & E1 & A1)
         (K2 & R2 & F2 & C2 & S2 & m2 & E2 & A2).
  unfold resolution_frame. repeat split; try congruence.
  - intros k r Hf Hp. apply S2; [apply S1 |]; assumption.
  - exists (m1 ++ m2). rewrite E2, E1, app_assoc, forallb_app, A1, A2.
    split; reflexivity.
Qed.

(** The cycle breaker on a state whose references are all defined. *)
Lemma cycle_breaker_spec s :
  resolving s -> references_defined s ->
  exists s',
    (report_unresolved_vars ;;; resolve_unresolved_vars) s =
      Returned tt s' /\
    errors s' =
      errors s ++ circular_errors (symbols_table s) (references_table s) /\
    unresolved s' = 0%N /\
    (forall k r, Table.find k (symbols_table s') = Some r ->
                 pending r = false) /\
    resolving s' /\ resolution_frame s s'.
Proof.
  intros Hinv Hdef. unfold bind.
  rewrite (report_unresolved_vars_returns s Hdef).
  set (s1 := with_errors _ s).
  assert (Hinv1 : resolving s1) by exact Hinv.
  destruct (resolve_unresolved_vars_spec s1 Hinv1)
    as (s' & Hrun & Hstep & Hinv' & Hzero & Hall).
  exists s'. split; [exact Hrun |].
  split.
  { destruct Hstep as (E & _). rewrite E. reflexivity. }
  split; [assumption |]. split; [assumption |]. split; [assumption |].
  apply resolution_frame_trans with (s2 := s1);
    [| apply resolution_step_frame; assumption].
  unfold resolution_frame, s1. simpl.
  repeat split; auto.
  eexists. split; [reflexivity | apply circular_errors_are_circular].
Qed.

Lemma cycle_breaker_throws s :
  ~ references_defined s ->
  exists st,
    (report_unresolved_vars ;;; resolve_unresolved_vars) s = Thrown st /\
    unresolved st = unresolved s /\
    symbols_table st = symbols_table s /\
    flushed st = flushed s /\ environ_calls st = environ_calls s.
Proof.
  intros Hundef.
  destruct (references_defined_dec s) as [H | (k & Hin & Hnone)];
    [contradiction |].
  destruct (report_loop_throws (references_table s) s k Hin Hnone)
    as (st & Hrun & H).
  exists st. unfold bind. unfold report_unresolved_vars. rewrite Hrun.
  split; [reflexivity | exact H].
Qed.

(** *** One iteration of the [while] loop *)

Lemma sweep_spec s :
  resolving s -> (0 < unresolved s)%N ->
  exists s1,
    sweep s = Returned tt s1 /\
    resolution_step s s1 /\ resolving s1 /\
    (unresolved s1 <= unresolved s)%N /\
    ((unresolved s1 < unresolved s)%N ->
     exists k r r', In k (Table.keys (symbols_table s)) /\
                    Table.find k (symbols_table s) = Some r /\
                    pending r = true /\
                    Table.find k (symbols_table s1) = Some r' /\
                    complete r' = true).
Proof.
  intros Hinv Hpos. unfold sweep.
  apply resolve_sweep_spec; [apply incl_refl | assumption | assumption].
Qed.

Lemma resolve_pass_unfold s s1 :
  sweep s = Returned tt s1 ->
  resolve_pass s =
  if (unresolved s =? unresolved s1)%N
  then (report_unresolved_vars ;;; resolve_unresolved_vars) s1
  else Returned tt s1.
Proof.
  intros Hsweep. unfold resolve_pass, bind at 1 2 3, gets.
  rewrite Hsweep. destruct (unresolved s =? unresolved s1)%N; reflexivity.
Qed.

Lemma references_defined_step s s1 :
  resolution_step s s1 -> (references_defined s <-> references_defined s1).
Proof.
  intros (E & Hkeys & _). unfold references_defined.
  assert (Hrefs : references_table s1 = references_table s)
    by (rewrite E; reflexivity).
  rewrite Hrefs.
  split; intros H k Hk; specialize (H k Hk);
    apply find_some_in_keys; apply find_some_in_keys in H; congruence.
Qed.

(** A pass that returns has strictly decreased the counter; a pass that
    does not return has stalled and met a reference without a record. *)
Lemma resolve_pass_progress s :
  resolving s -> (0 < unresolved s)%N ->
  (exists s', resolve_pass s = Returned tt s' /\ resolving s' /\
              (unresolved s' < unresolved s)%N /\ resolution_frame s s') \/
  (exists st s1, resolve_pass s = Thrown st /\
                 sweep s = Returned tt s1 /\
                 unresolved s1 = unresolved s /\
                 ~ references_defined s /\
                 flushed st = flushed s /\
                 environ_calls st = environ_calls s).
Proof.
  intros Hinv Hpos.
  destruct (sweep_spec s Hinv Hpos) as (s1 & Hsweep & Hstep & Hinv1 & Hle & _).
  rewrite (resolve_pass_unfold s s1 Hsweep).
  destruct (N.eqb_spec (unresolved s) (unresolved s1)) as [Heq | Hne].
  - destruct (references_defined_dec s1) as [Hdef | (k & Hin & Hnone)].
    + destruct (cycle_breaker_spec s1 Hinv1 Hdef)
        as (s' & Hrun & _ & Hzero & _ & Hinv' & Hframe).
      left. exists s'. split; [exact Hrun |]. split; [assumption |].
      split; [lia |].
      eapply resolution_frame_trans;
        [apply resolution_step_frame |]; eassumption.
    + assert (Hundef : ~ references_defined s1).
      { intros Hdef. exact (Hdef k Hin Hnone). }
      destruct (cycle_breaker_throws s1 Hundef)
        as (st & Hrun & _ & _ & Hf & He).
      right. exists st, s1. split; [exact Hrun |]. split; [exact Hsweep |].
      split; [congruence |].
      split; [rewrite (references_defined_step s s1 Hstep); exact Hundef |].
      destruct Hstep as (E & _). rewrite E in Hf, He. simpl in Hf, He.
      split; assumption.
  - left. exists s1. split; [reflexivity |]. split; [assumption |].
    split; [lia |]. apply resolution_step_frame. assumption.
Qed.

(** *** The [while] loop *)

Lemma resolve_vars_done fuel s :
  unresolved s = 0%N -> resolve_vars fuel s = Returned tt s.
Proof.
  intros Hz. destruct fuel; simpl; rewrite Hz; reflexivity.
Qed.

Lemma resolve_vars_more fuel s :
  (0 < unresolved s)%N ->
  resolve_vars (S fuel) s = (resolve_pass ;;; resolve_vars fuel) s.
Proof.
  intros Hpos. simpl.
  destruct (N.ltb_spec 0 (unresolved s)); [reflexivity | lia].
Qed.

(** The loop runs at most [unresolved] passes, each entered with the
    invariant and a positive counter; it ends with the counter at 0, or by
    the exception of a stalled pass. *)
Lemma resolve_vars_run bound :
  forall s,
    resolving s -> N.to_nat (unresolved s) <= bound ->
    exists n,
      n <= N.to_nat (unresolved s) /\
      (forall fuel, n <= fuel -> resolve_vars fuel s = passes n s) /\
      (forall m sm, m < n -> passes m s = Returned tt sm ->
                    resolving sm /\ (0 < unresolved sm)%N /\
                    resolution_frame s sm) /\
      ((exists s', passes n s = Returned tt s' /\ unresolved s' = 0%N /\
                   resolving s' /\ resolution_frame s s') \/
       (exists st, passes n s = Thrown st /\ ~ references_defined s /\
                   flushed st = flushed s /\
                   environ_calls st = environ_calls s)).
Proof.
  induction bound as [| bound IH]; intros s Hinv Hb.
  - exists 0. split; [lia |].
    split; [intros fuel _; apply resolve_vars_done; lia |].
    split; [intros m sm Hm; lia |].
    left. exists s. split; [reflexivity |]. split; [lia |].
    split; [assumption | apply resolution_frame_refl].
  - destruct (N.eqb_spec (unresolved s) 0) as [Hz | Hnz].
    + exists 0. split; [lia |].
      split; [intros fuel _; apply resolve_vars_done; assumption |].
      split; [intros m sm Hm; lia |].
      left. exists s. split; [reflexivity |]. split; [assumption |].
      split; [assumption | apply resolution_frame_refl].
    + assert (Hpos : (0 < unresolved s)%N) by lia.
      destruct (resolve_pass_progress s Hinv Hpos)
        as [(s' & Hrun & Hinv' & Hlt & Hframe)
           | (st & s1 & Hrun & _ & _ & Hundef & Hf & He)].
      * destruct (IH s' Hinv' ltac:(lia))
          as (n & Hn & Hfuel & Hmid & Hend).
        exists (S n). split; [lia |].
        split.
        { intros [| fuel] Hle; [lia |].
          rewrite resolve_vars_more by assumption.
          simpl. unfold bind. rewrite Hrun. apply Hfuel. lia. }
        split.
        { intros [| m] sm Hm Hsm.
          - inversion Hsm; subst sm.
            split; [assumption |]. split; [assumption |].
            apply resolution_frame_refl.
          - simpl in Hsm. unfold bind in Hsm. rewrite Hrun in Hsm.
            destruct (Hmid m sm ltac:(lia) Hsm) as (H1 & H2 & H3).
            split; [assumption |]. split; [assumption |].
            eapply resolution_frame_trans; eassumption. }
        simpl. unfold bind. rewrite Hrun.
        destruct Hend as [(s'' & Hp & Hz & Hinv'' & Hframe')
                         | (st & Hp & Hundef & Hf & He)].
        -- left. exists s''. split; [exact Hp |]. split; [assumption |].
           split; [assumption |].
           eapply resolution_frame_trans; eassumption.
        -- right. exists st. split; [exact Hp |].
           destruct Hframe as (K & R & F & C & _).
           split.
           { intros Hdef. apply Hundef. intros k Hk.
             rewrite R in Hk. specialize (Hdef k Hk).
             apply find_some_in_keys. apply find_some_in_keys in Hdef.
             congruence. }
           split; congruence.
      * exists 1. split; [lia |].
        split.
        { intros [| fuel] Hle; [lia |].
          rewrite resolve_vars_more by assumption.
          simpl. unfold bind. rewrite Hrun. reflexivity. }
        split.
        { intros m sm Hm Hsm. assert (m = 0) by lia. subst m.
          inversion Hsm; subst sm.
          split; [assumption |]. split; [assumption |].
          apply resolution_frame_refl. }
        right. exists st. simpl. unfold bind. rewrite Hrun. auto.
Qed.


(** *** The scan phase *)

Lemma define_spec overwrite t b :
  NoDup (Table.keys t) ->
  (forall k r, Table.find k t = Some r -> num_depends r = 0) ->
  NoDup (Table.keys (define overwrite t b)) /\
  (forall k r, Table.find k (define overwrite t b) = Some r ->
               num_depends r = 0) /\
  List.length (define overwrite t b) <= S (List.length t).
Proof.
  intros Hnd Hzero. destruct b as [[key v] locality]. unfold define.
  assert (Hassign :
    NoDup (Table.keys (Table.assign placeKey key (mkSymbolRecord v locality 0) t)) /\
    (forall k r,
       Table.find k (Table.assign placeKey key (mkSymbolRecord v locality 0) t) =
         Some r -> num_depends r = 0) /\
    List.length (Table.assign placeKey key (mkSymbolRecord v locality 0) t) <=
      S (List.length t)).
  { split; [apply nodup_assign; assumption |].
    split; [| apply length_assign_le].
    intros k r. rewrite find_assign.
    destruct (String.eqb k key); [| apply Hzero].
    intros E. inversion E. reflexivity. }
  destruct (Table.find key t); [destruct overwrite |]; try exact Hassign.
  split; [assumption |]. split; [assumption | lia].
Qed.

Lemma define_all_spec overwrite defs :
  forall t,
    NoDup (Table.keys t) ->
    (forall k r, Table.find k t = Some r -> num_depends r = 0) ->
    NoDup (Table.keys (fold_left (define overwrite) defs t)) /\
    (forall k r, Table.find k (fold_left (define overwrite) defs t) = Some r ->
                 num_depends r = 0) /\
    List.length (fold_left (define overwrite) defs t) <=
      List.length t + List.length defs.
Proof.
  induction defs as [| b rest IH]; intros t Hnd Hzero; simpl.
  - split; [assumption |]. split; [assumption | lia].
  - destruct (define_spec overwrite t b Hnd Hzero) as (H1 & H2 & H3).
    destruct (IH _ H1 H2) as (H4 & H5 & H6).
    split; [assumption |]. split; [assumption | lia].
Qed.

Lemma references_walk_spec symbols segs :
  forall w,
    (forall k,
       In k (Table.keys
               (rw_references (fold_left (references_listener symbols) segs w))) ->
       In k (Table.keys (rw_references w)) \/
       In k (Table.keys symbols)) /\
    (exists more,
       rw_errors (fold_left (references_listener symbols) segs w) =
         rw_errors w ++ more /\
       forallb is_undefined more = true).
Proof.
  induction segs as [| seg rest IH]; intros w; simpl.
  - split; [auto |]. exists []. rewrite app_nil_r. split; reflexivity.
  - destruct (IH (references_listener symbols w seg)) as (Hrefs & more & He & Hu).
    destruct seg as [raw | name raw l p | decoded raw l p]; simpl in *.
    + split; [exact Hrefs | eauto].
    + destruct (Table.find name symbols) as [target |] eqn:Hfind; simpl in *.
      * split; [| eauto].
        intros k Hk. destruct (Hrefs k Hk) as [H | H]; [| auto].
        apply keys_emplace_incl in H. destruct H as [-> | H]; [| auto].
        right. apply find_some_in_keys. congruence.
      * split; [exact Hrefs |].
        exists (UndefinedVariableError name l p :: more).
        rewrite He, <- app_assoc. simpl. auto.
    + split; [exact Hrefs | eauto].
Qed.

Lemma scan_frame_refl s : scan_frame s s.
Proof.
  unfold scan_frame. repeat split; auto.
  exists []. rewrite app_nil_r. split; reflexivity.
Qed.

Lemma scan_frame_trans s1 s2 s3 :
  scan_frame s1 s2 -> scan_frame s2 s3 -> scan_frame s1 s3.
Proof.
  intros (K1 & F1 & C1 & R1 & m1 & E1 & A1)
         (K2 & F2 & C2 & R2 & m2 & E2 & A2).
  unfold scan_frame. repeat split; try congruence.
  - intros k Hk. destruct (R2 k Hk) as [H | H].
    + apply R1. exact H.
    + right. congruence.
  - exists (m1 ++ m2). rewrite E2, E1, app_assoc, forallb_app, A1, A2.
    split; reflexivity.
Qed.

Lemma scan_symbol_step key s r :
  Table.find key (symbols_table s) = Some r -> num_depends r = 0 ->
  resolving s ->
  exists s',
    scan_symbol key s = Returned tt s' /\
    resolving s' /\ scan_frame s s' /\
    (forall k, k <> key ->
               Table.find k (symbols_table s') = Table.find k (symbols_table s)).
Proof.
  intros Hfind Hzero [Hnd Hc].
  unfold scan_symbol, bind, symbol_at. rewrite Hfind.
  destruct (local r) eqn:Hlocal.
  - unfold ReferencesListener, modify, walk_line.
    set (w := fold_left _ _ _).
    destruct (references_walk_spec (symbols_table s)
                (scanOccurrences (value r))
                (mkReferencesWalk "" 0 (references_table s) (errors s)))
      as (Hrefs & more & He & Hu).
    fold w in Hrefs, He. simpl in Hrefs, He.
    unfold deref, gets. simpl. rewrite find_update_same, Hfind. simpl.
    unfold complete. simpl. rewrite Hzero. simpl.
    set (f := fun r0 : SymbolRecord =>
                mkSymbolRecord (rw_value w) (local r0)
                  (num_depends r0 + rw_found w)).
    pose proof (incomplete_update key f (symbols_table s) r Hfind) as Hcount.
    assert (Hp : pending r = false).
    { unfold pending, complete. rewrite Hzero. apply andb_false_r. }
    rewrite Hp in Hcount. unfold f at 2 in Hcount.
    unfold pending, complete in Hcount. simpl in Hcount.
    rewrite Hlocal, Hzero in Hcount. simpl in Hcount.
    destruct (Nat.eqb (rw_found w) 0) eqn:Hfound; simpl in *.
    + eexists. unfold ret. split; [reflexivity |].
      split; [| split].
      * split; simpl; [rewrite keys_update; exact Hnd |].
        unfold counter_ok in *. simpl. rewrite Hc. f_equal. f_equal. lia.
      * unfold scan_frame. simpl. rewrite keys_update.
        repeat split; eauto.
      * intros k Hk. simpl. apply find_update_other. congruence.
    + eexists. unfold incr_unresolved, modify. split; [reflexivity |].
      split; [| split].
      * split; simpl; [rewrite keys_update; exact Hnd |].
        unfold counter_ok in *. simpl. rewrite Hc, size_incr_count.
        f_equal. f_equal. lia.
      * unfold scan_frame. simpl. rewrite keys_update.
        repeat split; eauto.
      * intros k Hk. simpl. apply find_update_other. congruence.
  - exists s. unfold ret. split; [reflexivity |].
    split; [split; assumption |]. split; [apply scan_frame_refl | auto].
Qed.

Lemma scan_loop_spec todo :
  forall s,
    NoDup todo -> incl todo (Table.keys (symbols_table s)) ->
    (forall k r, In k todo -> Table.find k (symbols_table s) = Some r ->
                 num_depends r = 0) ->
    resolving s ->
    exists s',
      for_each scan_symbol todo s = Returned tt s' /\
      resolving s' /\ scan_frame s s'.
Proof.
  induction todo as [| key rest IH]; intros s Hnd Hincl Hzero Hinv.
  - exists s. simpl. unfold ret. split; [reflexivity |].
    split; [assumption | apply scan_frame_refl].
  - inversion Hnd as [| ? ? Hnotin Hnd']; subst.
    destruct (in_keys_find _ _ (Hincl key (or_introl eq_refl))) as [r Hfind].
    destruct (scan_symbol_step key s r Hfind
                (Hzero key r (or_introl eq_refl) Hfind) Hinv)
      as (s1 & Hrun & Hinv1 & Hframe & Hother).
    assert (Hne : forall k, In k rest -> k <> key) by
      (intros k Hk ->; contradiction).
    destruct (IH s1 Hnd') as (s2 & Hrun2 & Hinv2 & Hframe2).
    + destruct Hframe as (Hkeys & _). rewrite Hkeys.
      intros k Hk. apply Hincl. right. exact Hk.
    + intros k r0 Hk Hf. rewrite (Hother k (Hne k Hk)) in Hf.
      apply (Hzero k r0); [right; exact Hk | exact Hf].
    + assumption.
    + exists s2. simpl. unfold bind. rewrite Hrun.
      split; [exact Hrun2 |]. split; [assumption |].
      eapply scan_frame_trans; eassumption.
Qed.

(** Whatever state [parse] is called in, the scan phase hands the resolver
    a table without repeated keys and a counter that agrees with it. *)
Lemma scan_phase_spec is_ overwrite s0 :
  exists s,
    scan_phase is_ overwrite s0 = Returned tt s /\
    resolving s /\
    List.length (symbols_table s) <= List.length (scanDefinitions is_) /\
    flushed s = flushed s0 /\ environ_calls s = environ_calls s0 /\
    forallb is_undefined (errors s) = true /\
    (forall k, In k (Table.keys (references_table s)) ->
               In k (Table.keys (references_table s0)) \/
               In k (Table.keys (symbols_table s))).
Proof.
  unfold scan_phase, initialization, parse_dotenv, errors_clear, bind, modify.
  simpl.
  set (t := fold_left (define overwrite) (scanDefinitions is_) []).
  destruct (define_all_spec overwrite (scanDefinitions is_) [])
    as (Hnd & Hzero & Hlen);
    [constructor | intros k r; discriminate |].
  fold t in Hnd, Hzero, Hlen. simpl in Hlen.
  set (s1 := mkState 0 t (references_table s0) [] (flushed s0)
               (environ_calls s0)).
  assert (Hinv1 : resolving s1).
  { split; [exact Hnd |]. unfold counter_ok. simpl.
    rewrite incomplete_none; [reflexivity | exact Hnd |].
    intros k r Hf. unfold pending, complete.
    rewrite (Hzero k r Hf). apply andb_false_r. }
  destruct (scan_loop_spec (Table.keys t) s1 Hnd (incl_refl _))
    as (s & Hrun & Hinv & Hkeys & Hf & Hc & Hrefs & more & He & Hu).
  { intros k r _ Hfind. exact (Hzero k r Hfind). }
  { exact Hinv1. }
  exists s. split; [exact Hrun |]. split; [assumption |].
  split.
  { pose proof (f_equal (@List.length string) Hkeys) as HL.
    unfold Table.keys in HL. rewrite !List.length_map in HL.
    simpl in HL. lia. }
  split; [exact Hf |]. split; [exact Hc |].
  split; [rewrite He; exact Hu |].
  intros k Hk. destruct (Hrefs k Hk) as [H | H]; [left; exact H |].
  right. rewrite Hkeys. exact H.
Qed.

(** *** Escape expansion, registration and the flush *)

Lemma with_symbols_same s : with_symbols (symbols_table s) s = s.
Proof. destruct s; reflexivity. Qed.

Lemma expand_symbol_step key s r :
  Table.find key (symbols_table s) = Some r ->
  expand_symbol key s =
  Returned tt
    (with_symbols (Table.update key expanded (symbols_table s)) s).
Proof.
  intros Hfind. unfold expand_symbol, bind, symbol_at. rewrite Hfind.
  assert (Hupd : forall t, Table.find key t = Some r ->
            Table.update key expanded t =
            if local r
            then Table.update key (set_value (walk_line (value r) expand "")) t
            else t).
  { induction t as [| [k v] rest IH]; simpl; [discriminate |].
    destruct (String.eqb_spec key k) as [-> | Hne]; intros E.
    - inversion E; subst. unfold expanded.
      destruct (local r); reflexivity.
    - rewrite (IH E). destruct (local r); reflexivity. }
  rewrite (Hupd _ Hfind).
  destruct (local r); [reflexivity |].
  unfold ret. rewrite with_symbols_same. reflexivity.
Qed.

Lemma expand_loop_spec todo :
  forall s,
    NoDup todo -> incl todo (Table.keys (symbols_table s)) ->
    exists t',
      for_each expand_symbol todo s = Returned tt (with_symbols t' s) /\
      Table.keys t' = Table.keys (symbols_table s) /\
      (forall k, ~ In k todo ->
                 Table.find k t' = Table.find k (symbols_table s)) /\
      (forall k r, In k todo -> Table.find k (symbols_table s) = Some r ->
                   Table.find k t' = Some (expanded r)).
Proof.
  induction todo as [| key rest IH]; intros s Hnd Hincl.
  - exists (symbols_table s). simpl. unfold ret.
    rewrite with_symbols_same. split; [reflexivity |].
    split; [reflexivity |]. split; [reflexivity |]. intros k r [].
  - inversion Hnd as [| ? ? Hnotin Hnd']; subst.
    destruct (in_keys_find _ _ (Hincl key (or_introl eq_refl))) as [r Hfind].
    simpl. unfold bind. rewrite (expand_symbol_step key s r Hfind).
    set (s1 := with_symbols _ s).
    destruct (IH s1 Hnd') as (t' & Hrun & Hkeys & Hout & Hin).
    { unfold s1. simpl. rewrite keys_update.
      intros k Hk. apply Hincl. right. exact Hk. }
    exists t'. split; [rewrite Hrun; reflexivity |].
    split; [rewrite Hkeys; unfold s1; simpl; apply keys_update |].
    split.
    + intros k Hk. rewrite Hout by (intros H; apply Hk; right; exact H).
      unfold s1. simpl. apply find_update_other.
      intros ->. apply Hk. left. reflexivity.
    + intros k r0 [<- | Hk] Hf.
      * rewrite Hout by assumption. unfold s1. simpl.
        rewrite find_update_same, Hf. reflexivity.
      * apply Hin; [exact Hk |]. unfold s1. simpl.
        rewrite find_update_other by (intros ->; contradiction).
        exact Hf.
Qed.

Lemma expand_escape_spec s :
  NoDup (Table.keys (symbols_table s)) ->
  exists t',
    expand_escape s = Returned tt (with_symbols t' s) /\
    Table.keys t' = Table.keys (symbols_table s) /\
    (forall k r, Table.find k (symbols_table s) = Some r ->
                 Table.find k t' = Some (expanded r)).
Proof.
  intros Hnd.
  destruct (expand_loop_spec (Table.keys (symbols_table s)) s Hnd
              (incl_refl _)) as (t' & Hrun & Hkeys & _ & Hin).
  exists t'. split; [exact Hrun |]. split; [exact Hkeys |].
  intros k r Hf. apply Hin; [| exact Hf].
  apply find_some_in_keys. congruence.
Qed.

(** The escape expander, without any assumption on the table: it returns,
    and only the Local records it walks can differ. *)
Lemma expand_loop_frame todo :
  forall s,
    incl todo (Table.keys (symbols_table s)) ->
    exists t',
      for_each expand_symbol todo s = Returned tt (with_symbols t' s) /\
      Table.keys t' = Table.keys (symbols_table s) /\
      (forall k r, Table.find k (symbols_table s) = Some r ->
                   local r = false -> Table.find k t' = Some r).
Proof.
  induction todo as [| key rest IH]; intros s Hincl.
  - exists (symbols_table s). simpl. unfold ret.
    rewrite with_symbols_same. auto.
  - destruct (in_keys_find _ _ (Hincl key (or_introl eq_refl))) as [r Hfind].
    simpl. unfold bind. rewrite (expand_symbol_step key s r Hfind).
    set (s1 := with_symbols _ s).
    destruct (IH s1) as (t' & Hrun & Hkeys & Hext).
    { unfold s1. simpl. rewrite keys_update.
      intros k Hk. apply Hincl. right. exact Hk. }
    exists t'. split; [rewrite Hrun; reflexivity |].
    split; [rewrite Hkeys; unfold s1; simpl; apply keys_update |].
    intros k r0 Hf Hl. apply Hext; [| exact Hl].
    unfold s1. simpl.
    destruct (String.eqb_spec key k) as [-> | Hne].
    + rewrite find_update_same, Hf. simpl. unfold expanded.
      rewrite Hl. reflexivity.
    + rewrite find_update_other by assumption. exact Hf.
Qed.

Lemma register_loop_spec overwrite todo :
  forall s,
    (forall kr, In kr todo ->
                Table.find (fst kr) (symbols_table s) = Some (snd kr)) ->
    for_each (register_symbol overwrite) (map fst todo) s =
    Returned tt
      (mkState (unresolved s) (symbols_table s) (references_table s)
         (errors s) (flushed s)
         (environ_calls s ++ local_calls overwrite todo)).
Proof.
  induction todo as [| [k r] rest IH]; intros s Hfind.
  - simpl. unfold ret, local_calls. simpl. rewrite app_nil_r.
    destruct s; reflexivity.
  - simpl. unfold bind at 1. unfold register_symbol, bind, symbol_at.
    pose proof (Hfind (k, r) (or_introl eq_refl)) as Hk. simpl in Hk.
    rewrite Hk. simpl.
    unfold local_calls. simpl.
    destruct (local r); simpl.
    + unfold setenv, modify. rewrite IH.
      * simpl. rewrite <- app_assoc. reflexivity.
      * intros kr Hkr. simpl. apply Hfind. right. exact Hkr.
    + unfold ret. apply IH. intros kr Hkr. apply Hfind. right. exact Hkr.
Qed.

Lemma register_env_spec overwrite s :
  NoDup (Table.keys (symbols_table s)) ->
  register_env overwrite s =
  Returned tt
    (mkState (unresolved s) (symbols_table s) (references_table s)
       (errors s) (flushed s)
       (environ_calls s ++ local_calls overwrite (symbols_table s))).
Proof.
  intros Hnd. unfold register_env, for_each_symbol, Table.keys.
  apply register_loop_spec.
  intros [k r] Hin. simpl. apply find_of_entry; assumption.
Qed.

Lemma publish_spec overwrite s :
  NoDup (Table.keys (symbols_table s)) ->
  exists t',
    expand_escape s = Returned tt (with_symbols t' s) /\
    publish overwrite s =
    Returned tt
      (mkState (unresolved s) t' (references_table s) []
         (flushed s ++ [errors s])
         (environ_calls s ++ local_calls overwrite t')) /\
    Table.keys t' = Table.keys (symbols_table s) /\
    (forall k r, Table.find k (symbols_table s) = Some r ->
                 Table.find k t' = Some (expanded r)).
Proof.
  intros Hnd.
  destruct (expand_escape_spec s Hnd) as (t' & Hrun & Hkeys & Hexp).
  exists t'. split; [exact Hrun |]. split; [| split; assumption].
  unfold publish, bind. rewrite Hrun.
  rewrite register_env_spec by (simpl; rewrite Hkeys; exact Hnd).
  reflexivity.
Qed.

(** *** [parse] as a whole *)

Lemma parse_unfold fuel is_ overwrite interpolate s :
  parse fuel is_ overwrite interpolate s =
  (resolution fuel is_ overwrite interpolate ;;; publish overwrite) s.
Proof.
  unfold parse, resolution, publish, bind. simpl.
  destruct interpolate; [| reflexivity].
  destruct (parse_line _) as [[] s1 | |]; [| reflexivity | reflexivity].
  destruct (resolve_vars fuel s1); reflexivity.
Qed.

Lemma resolution_interpolate fuel is_ overwrite s :
  resolution fuel is_ overwrite true s =
  (scan_phase is_ overwrite ;;; resolve_vars fuel) s.
Proof.
  unfold resolution, scan_phase, bind. simpl.
  destruct (parse_line _); reflexivity.
Qed.

Lemma resolution_raw fuel is_ overwrite s :
  resolution fuel is_ overwrite false s =
  Returned tt
    (mkState 0 (raw_table is_ overwrite) (references_table s) []
       (flushed s) (environ_calls s)).
Proof. reflexivity. Qed.

Lemma raw_table_nodup is_ overwrite :
  NoDup (Table.keys (raw_table is_ overwrite)).
Proof.
  unfold raw_table.
  destruct (define_all_spec overwrite (scanDefinitions is_) [])
    as (H & _); [constructor | intros k r; discriminate | exact H].
Qed.

Lemma parse_raw_unfold fuel is_ overwrite s :
  parse fuel is_ overwrite false s = parse_raw is_ overwrite s.
Proof. reflexivity. Qed.

(** The resolver, entered from the scan phase: it never runs out of a fuel
    that covers the definitions of the source. *)
Lemma resolution_spec fuel is_ overwrite s0 :
  List.length (scanDefinitions is_) <= fuel ->
  resolution fuel is_ overwrite true s0 =
    resolution (List.length (scanDefinitions is_)) is_ overwrite true s0 /\
  ((exists s1,
      resolution fuel is_ overwrite true s0 = Returned tt s1 /\
      resolving s1 /\ unresolved s1 = 0%N /\
      flushed s1 = flushed s0 /\ environ_calls s1 = environ_calls s0) \/
   (exists st,
      resolution fuel is_ overwrite true s0 = Thrown st /\
      flushed st = flushed s0 /\ environ_calls st = environ_calls s0)).
Proof.
  intros Hfuel. rewrite !resolution_interpolate. unfold bind.
  destruct (scan_phase_spec is_ overwrite s0)
    as (s & Hscan & Hinv & Hlen & Hf & He & _).
  rewrite Hscan.
  destruct (resolve_vars_run _ s Hinv (Nat.le_refl _))
    as (n & Hn & Hrun & _ & Hend).
  assert (Hbound : n <= List.length (scanDefinitions is_)).
  { pose proof (unresolved_bound s Hinv). lia. }
  rewrite (Hrun fuel) by lia. rewrite (Hrun _ Hbound).
  split; [reflexivity |].
  destruct Hend as [(s' & Hp & Hz & Hinv' & Hframe)
                   | (st & Hp & _ & Hf' & He')].
  - left. exists s'. split; [exact Hp |]. split; [assumption |].
    split; [assumption |].
    destruct Hframe as (_ & _ & F & C & _). split; congruence.
  - right. exists st. split; [exact Hp |]. split; congruence.
Qed.

(** On a parser whose Reference Table is empty, [parse] returns: it has
    published the table and flushed the sink once. *)
Lemma parse_completes fuel is_ overwrite interpolate s0 :
  references_table s0 = [] ->
  List.length (scanDefinitions is_) <= fuel ->
  exists sf batch,
    parse fuel is_ overwrite interpolate s0 = Returned tt sf /\
    flushed sf = flushed s0 ++ [batch] /\ errors sf = [] /\
    environ_calls sf =
      environ_calls s0 ++ local_calls overwrite (symbols_table sf).
Proof.
  intros Hrefs Hfuel. rewrite parse_unfold. unfold bind.
  destruct interpolate.
  - rewrite resolution_interpolate. unfold bind.
    destruct (scan_phase_spec is_ overwrite s0)
      as (s & Hscan & Hinv & Hlen & Hf & He & _ & Hr).
    rewrite Hscan.
    assert (Hdef : references_defined s).
    { intros k Hk. apply find_some_in_keys.
      destruct (Hr k Hk) as [H | H]; [| exact H].
      rewrite Hrefs in H. destruct H. }
    destruct (resolve_vars_run _ s Hinv (Nat.le_refl _))
      as (n & Hn & Hrun & _ & Hend).
    rewrite (Hrun fuel).
    2:{ pose proof (unresolved_bound s Hinv). lia. }
    destruct Hend as [(s' & Hp & Hz & Hinv' & Hframe)
                     | (st & _ & Hundef & _)]; [| contradiction].
    rewrite Hp.
    destruct (publish_spec overwrite s' (proj1 Hinv'))
      as (t' & _ & Hpub & _).
    rewrite Hpub. eexists. eexists. split; [reflexivity |]. simpl.
    destruct Hframe as (_ & _ & F & C & _).
    rewrite F, C, Hf, He. auto.
  - rewrite resolution_raw.
    destruct (publish_spec overwrite
                (mkState 0 (raw_table is_ overwrite) (references_table s0)
                   [] (flushed s0) (environ_calls s0))
                (raw_table_nodup is_ overwrite))
      as (t' & _ & Hpub & _).
    rewrite Hpub. eexists. eexists. split; [reflexivity |]. simpl. auto.
Qed.

Lemma resolve_symbol_outcome key s b s' :
  resolve_symbol key s = Returned b s' ->
  b = (unresolved s' =? 0)%N \/ (b = false /\ s' = s).
Proof.
  unfold resolve_symbol, bind, symbol_at.
  destruct (Table.find key (symbols_table s)) as [r |]; [| discriminate].
  destruct (local r && negb (complete r)).
  - unfold ResolverListener, modify.
    destruct (walk_line (value r) (substitute false (symbols_table s)) ("", 0))
      as [out remaining].
    unfold deref, gets. simpl.
    match goal with
    | |- context [if ?c then _ else _] => destruct c
    end; simpl; intros E; inversion E; subst; left; reflexivity.
  - unfold ret. intros E. inversion E. right. auto.
Qed.

Lemma resolve_sweep_app pre :
  forall rest s s1,
    resolve_sweep pre s = Returned tt s1 -> unresolved s1 <> 0%N ->
    resolve_sweep (pre ++ rest) s = resolve_sweep rest s1.
Proof.
  induction pre as [| key pre IH]; intros rest s s1 Hrun Hnz.
  - inversion Hrun. reflexivity.
  - simpl in *. unfold bind in *.
    destruct (resolve_symbol key s) as [b s' | |] eqn:Hsym;
      try discriminate.
    destruct (resolve_symbol_outcome key s b s' Hsym) as [Hb | [Hb Hs]].
    + destruct b.
      * inversion Hrun; subst s'. symmetry in Hb.
        apply N.eqb_eq in Hb. contradiction.
      * apply IH; assumption.
    + subst b. apply IH; assumption.
Qed.

Lemma resolve_vars_returned fuel :
  forall s s',
    resolving s -> resolve_vars fuel s = Returned tt s' ->
    resolving s' /\ unresolved s' = 0%N /\ resolution_frame s s'.
Proof.
  induction fuel as [| fuel IH]; intros s s' Hinv Hrun.
  - simpl in Hrun.
    destruct (N.ltb_spec 0 (unresolved s)); [discriminate |].
    inversion Hrun; subst s'.
    split; [assumption |]. split; [lia | apply resolution_frame_refl].
  - destruct (N.ltb_spec 0 (unresolved s)) as [Hpos | Hz].
    + rewrite resolve_vars_more in Hrun by assumption.
      unfold bind in Hrun.
      destruct (resolve_pass_progress s Hinv Hpos)
        as [(s1 & Hpass & Hinv1 & _ & Hframe) | (st & s1 & Hpass & _)];
        rewrite Hpass in Hrun; [| discriminate].
      destruct (IH s1 s' Hinv1 Hrun) as (H1 & H2 & H3).
      split; [assumption |]. split; [assumption |].
      eapply resolution_frame_trans; eassumption.
    + rewrite resolve_vars_done in Hrun by lia.
      inversion Hrun; subst s'.
      split; [assumption |]. split; [lia | apply resolution_frame_refl].
Qed.

Lemma cycle_breaker_returned s s' :
  resolving s ->
  (report_unresolved_vars ;;; resolve_unresolved_vars) s = Returned tt s' ->
  unresolved s' = 0%N.
Proof.
  intros Hinv Hrun.
  destruct (references_defined_dec s) as [Hdef | (k & Hin & Hnone)].
  - destruct (cycle_breaker_spec s Hinv Hdef) as (s2 & Hrun2 & _ & Hz & _).
    congruence.
  - assert (Hundef : ~ references_defined s)
      by (intros Hdef; exact (Hdef k Hin Hnone)).
    destruct (cycle_breaker_throws s Hundef) as (st & Hrun2 & _).
    congruence.
Qed.

Lemma stalled_pass_returned s s' :
  resolving s -> (0 < unresolved s)%N -> stalls s ->
  resolve_pass s = Returned tt s' -> unresolved s' = 0%N.
Proof.
  intros Hinv Hpos (s1 & Hsweep & Hu) Hrun.
  destruct (sweep_spec s Hinv Hpos) as (s1' & Hsweep' & _ & Hinv1 & _).
  assert (s1' = s1) by congruence. subst s1'.
  rewrite (resolve_pass_unfold s s1 Hsweep), Hu, N.eqb_refl in Hrun.
  eapply cycle_breaker_returned; eassumption.
Qed.


(** The state the resolution leaves when it returns. *)
Lemma resolution_returned fuel is_ overwrite interpolate s0 s1 :
  resolution fuel is_ overwrite interpolate s0 = Returned tt s1 ->
  NoDup (Table.keys (symbols_table s1)) /\
  (interpolate = true -> unresolved s1 = 0%N) /\
  flushed s1 = flushed s0 /\ environ_calls s1 = environ_calls s0.
Proof.
  intros Hres. destruct interpolate.
  - rewrite resolution_interpolate in Hres. unfold bind in Hres.
    destruct (scan_phase_spec is_ overwrite s0)
      as (s & Hscan & Hinv & _ & Hf & He & _).
    rewrite Hscan in Hres.
    destruct (resolve_vars_returned fuel s s1 Hinv Hres)
      as (Hinv1 & Hz & (_ & _ & F & C & _)).
    split; [exact (proj1 Hinv1) |]. split; [auto |]. split; congruence.
  - rewrite resolution_raw in Hres. inversion Hres; subst s1. simpl.
    split; [apply raw_table_nodup |]. split; [discriminate | auto].
Qed.

Lemma parse_returned fuel is_ overwrite interpolate s0 sf :
  parse fuel is_ overwrite interpolate s0 = Returned tt sf ->
  exists s1 t',
    resolution fuel is_ overwrite interpolate s0 = Returned tt s1 /\
    NoDup (Table.keys (symbols_table s1)) /\
    (interpolate = true -> unresolved s1 = 0%N) /\
    flushed s1 = flushed s0 /\ environ_calls s1 = environ_calls s0 /\
    expand_escape s1 = Returned tt (with_symbols t' s1) /\
    (forall k r, Table.find k (symbols_table s1) = Some r ->
                 Table.find k t' = Some (expanded r)) /\
    sf = mkState (unresolved s1) t' (references_table s1) []
           (flushed s1 ++ [errors s1])
           (environ_calls s1 ++ local_calls overwrite t').
Proof.
  rewrite parse_unfold. unfold bind.
  destruct (resolution fuel is_ overwrite interpolate s0)
    as [[] s1 | |] eqn:Hres; try discriminate.
  intros Hpub.
  destruct (resolution_returned fuel is_ overwrite interpolate s0 s1 Hres)
    as (Hnd & Hz & Hf & He).
  destruct (publish_spec overwrite s1 Hnd) as (t' & Hexp & Hpub' & _ & Hval).
  exists s1, t'. rewrite Hpub' in Hpub. inversion Hpub. auto 10.
Qed.

(* ---------------------------------------------------------------- *)
(** ** The claims *)

(** C1.  A call to [parse] ends, in whatever state the parser is called and
    whatever the source holds: with a fuel that covers the definitions of
    the source the [while] loop of [resolve_vars] never runs dry, and more
    fuel changes nothing.  The loop runs finitely many passes because a
    pass that returns has strictly decreased [unresolved], and a pass that
    returns after a stalled sweep leaves [unresolved] at 0. *)
Theorem parse_terminates fuel is_ overwrite interpolate s0 :
  List.length (scanDefinitions is_) <= fuel ->
  terminated (parse fuel is_ overwrite interpolate s0) /\
  parse fuel is_ overwrite interpolate s0 =
    parse (List.length (scanDefinitions is_)) is_ overwrite interpolate s0 /\
  (forall s, scan_phase is_ overwrite s0 = Returned tt s ->
     exists n,
       n <= List.length (scanDefinitions is_) /\
       resolve_vars fuel s = passes n s /\
       forall m sm s',
         m < n -> passes m s = Returned tt sm ->
         resolve_pass sm = Returned tt s' ->
         (unresolved s' < unresolved sm)%N /\
         (stalls sm -> unresolved s' = 0%N)).
Proof.
  intros Hfuel. split; [| split].
  - rewrite parse_unfold. unfold bind. destruct interpolate.
    + destruct (resolution_spec fuel is_ overwrite s0 Hfuel)
        as (_ & [(s1 & Hres & Hinv & _) | (st & Hres & _)]);
        rewrite Hres; [| exact I].
      destruct (publish_spec overwrite s1 (proj1 Hinv)) as (t' & _ & Hpub & _).
      rewrite Hpub. exact I.
    + rewrite resolution_raw.
      destruct (publish_spec overwrite
                  (mkState 0 (raw_table is_ overwrite) (references_table s0)
                     [] (flushed s0) (environ_calls s0))
                  (raw_table_nodup is_ overwrite)) as (t' & _ & Hpub & _).
      rewrite Hpub. exact I.
  - rewrite !parse_unfold. unfold bind. destruct interpolate.
    + destruct (resolution_spec fuel is_ overwrite s0 Hfuel) as (E & _).
      rewrite E. reflexivity.
    + reflexivity.
  - intros s Hscan.
    destruct (scan_phase_spec is_ overwrite s0)
      as (s' & Hscan' & Hinv & Hlen & _).
    assert (s' = s) by congruence. subst s'.
    destruct (resolve_vars_run _ s Hinv (Nat.le_refl _))
      as (n & Hn & Hrun & Hmid & _).
    assert (Hbound : n <= List.length (scanDefinitions is_)).
    { pose proof (unresolved_bound s Hinv). lia. }
    exists n. split; [exact Hbound |].
    split; [apply Hrun; lia |].
    intros m sm s' Hm Hsm Hpass.
    destruct (Hmid m sm Hm Hsm) as (Hinvm & Hposm & _).
    split.
    + destruct (resolve_pass_progress sm Hinvm Hposm)
        as [(s2 & Hp & _ & Hlt & _) | (st & s1 & Hp & _)]; congruence.
    + intros Hstall. eapply stalled_pass_returned; eassumption.
Qed.

(** C5.  With [interpolate == false], [parse] is [parse_raw]: the
    initialization, [parse_dotenv], then escape expansion, registration and
    the flush.  The dependency scan, the resolver and the cycle breaker are
    not run: the fuel is irrelevant, the Reference Table is the one the
    call found, the flushed batch is empty (no undefined-variable and no
    circular-reference record), and what is published is the raw table with
    its escapes expanded. *)
Theorem parse_without_interpolation fuel is_ overwrite s0 :
  parse fuel is_ overwrite false s0 = parse_raw is_ overwrite s0 /\
  exists t',
    parse fuel is_ overwrite false s0 =
    Returned tt
      (mkState 0 t' (references_table s0) [] (flushed s0 ++ [[]])
         (environ_calls s0 ++ local_calls overwrite t')) /\
    Table.keys t' = Table.keys (raw_table is_ overwrite) /\
    (forall k r, Table.find k (raw_table is_ overwrite) = Some r ->
                 Table.find k t' = Some (expanded r)).
Proof.
  split; [reflexivity |].
  rewrite parse_unfold. unfold bind. rewrite resolution_raw.
  destruct (publish_spec overwrite
              (mkState 0 (raw_table is_ overwrite) (references_table s0)
                 [] (flushed s0) (environ_calls s0))
              (raw_table_nodup is_ overwrite))
    as (t' & _ & Hpub & Hkeys & Hval).
  exists t'. rewrite Hpub. simpl. auto.
Qed.

(** C6.  In a sweep, once the walk of a record brings [unresolved] to 0 the
    sweep is over: whatever records follow in the table, the sweep returns
    the state that walk left, so none of them is walked. *)
Theorem sweep_short_circuit pre key post s s1 s2 b :
  resolve_sweep pre s = Returned tt s1 ->
  (0 < unresolved s1)%N ->
  resolve_symbol key s1 = Returned b s2 ->
  unresolved s2 = 0%N ->
  resolve_sweep (pre ++ key :: post) s = Returned tt s2.
Proof.
  intros Hpre Hpos Hsym Hz.
  rewrite (resolve_sweep_app pre (key :: post) s s1 Hpre) by lia.
  simpl. unfold bind. rewrite Hsym.
  destruct (resolve_symbol_outcome key s1 b s2 Hsym) as [Hb | [_ Hs]].
  - rewrite Hb, Hz. reflexivity.
  - subst s2. lia.
Qed.

(** C7.  [expand_escape] returns and changes nothing but values in the
    Symbol Table: every External record is as it was, and (the table
    holding no key twice) every record is [expanded], that is, the walk has
    been applied to each Local record.  In [parse] it runs once, after the
    resolution: whenever the resolution returns (with [unresolved] at 0 if
    the call interpolates), [parse] returns, and the table of its final state
    is the table [expand_escape] makes of the state the resolution left. *)
Theorem expand_escape_local_only :
  (forall s,
     exists t',
       expand_escape s = Returned tt (with_symbols t' s) /\
       Table.keys t' = Table.keys (symbols_table s) /\
       (forall k r, Table.find k (symbols_table s) = Some r ->
                    local r = false -> Table.find k t' = Some r) /\
       (NoDup (Table.keys (symbols_table s)) ->
        forall k r, Table.find k (symbols_table s) = Some r ->
                    Table.find k t' = Some (expanded r))) /\
  (forall fuel is_ overwrite interpolate s0 s1,
     resolution fuel is_ overwrite interpolate s0 = Returned tt s1 ->
     (interpolate = true -> unresolved s1 = 0%N) /\
     exists sf,
       parse fuel is_ overwrite interpolate s0 = Returned tt sf /\
       expand_escape s1 = Returned tt (with_symbols (symbols_table sf) s1) /\
       (forall k r, Table.find k (symbols_table s1) = Some r ->
                    Table.find k (symbols_table sf) = Some (expanded r))).
Proof.
  split.
  - intros s.
    destruct (expand_loop_frame (Table.keys (symbols_table s)) s
                (incl_refl _)) as (t' & Hrun & Hkeys & Hext).
    exists t'. split; [exact Hrun |]. split; [exact Hkeys |].
    split; [exact Hext |].
    intros Hnd k r Hfind.
    destruct (expand_escape_spec s Hnd) as (t2 & Hrun2 & _ & Hval).
    unfold expand_escape, for_each_symbol in Hrun2.
    rewrite Hrun in Hrun2. inversion Hrun2. subst t2.
    apply Hval. exact Hfind.
  - intros fuel is_ overwrite interpolate s0 s1 Hres.
    destruct (resolution_returned fuel is_ overwrite interpolate s0 s1 Hres)
      as (Hnd & Hz & _).
    split; [exact Hz |].
    destruct (publish_spec overwrite s1 Hnd) as (t' & Hexp & Hpub & _ & Hval).
    eexists. rewrite parse_unfold. unfold bind. rewrite Hres.
    split; [exact Hpub |]. simpl. split; [exact Hexp | exact Hval].
Qed.

(** C8.  [register_env] (on a table holding no key twice) calls [setenv]
    exactly for the Local records, in table order, each with its key, its
    value and the overwrite flag, and changes nothing else: every call is
    that of a Local record and every Local record has its call.  In a call
    of [parse] that returns, the calls made are those of the Local records
    of the final table. *)
Theorem register_env_local_only overwrite s :
  NoDup (Table.keys (symbols_table s)) ->
  register_env overwrite s =
    Returned tt
      (mkState (unresolved s) (symbols_table s) (references_table s)
         (errors s) (flushed s)
         (environ_calls s ++ local_calls overwrite (symbols_table s))) /\
  (forall c, In c (local_calls overwrite (symbols_table s)) ->
     exists r, Table.find (env_key c) (symbols_table s) = Some r /\
               local r = true /\ env_value c = value r /\
               env_overwrite c = overwrite) /\
  (forall k r, Table.find k (symbols_table s) = Some r -> local r = true ->
               In (mkSetenvCall k (value r) overwrite)
                  (local_calls overwrite (symbols_table s))) /\
  (forall fuel is_ interpolate s0 sf,
     parse fuel is_ overwrite interpolate s0 = Returned tt sf ->
     environ_calls sf =
       environ_calls s0 ++ local_calls overwrite (symbols_table sf)).
Proof.
  intros Hnd. split; [apply register_env_spec; exact Hnd |].
  split; [| split].
  - intros c Hc. unfold local_calls in Hc.
    apply in_map_iff in Hc. destruct Hc as ([k r] & <- & Hin).
    apply filter_In in Hin. destruct Hin as [Hin Hl]. simpl in *.
    exists r. split; [apply find_of_entry; assumption | auto].
  - intros k r Hfind Hl. unfold local_calls.
    apply in_map_iff. exists (k, r). split; [reflexivity |].
    apply filter_In. split; [| exact Hl].
    clear Hnd. induction (symbols_table s) as [| [k' v] rest IH];
      simpl in *; [discriminate |].
    destruct (String.eqb_spec k k') as [-> | Hne].
    + inversion Hfind. left. reflexivity.
    + right. apply IH. exact Hfind.
  - intros fuel is_ interpolate s0 sf Hparse.
    destruct (parse_returned fuel is_ overwrite interpolate s0 sf Hparse)
      as (s1 & t' & _ & _ & _ & _ & He & _ & _ & ->).
    simpl. rewrite He. reflexivity.
Qed.

(** C10.  [report_unresolved_vars] looks every key of the Reference Table
    up with [symbols_table.at]: when every such key has a record in the
    Symbol Table the call returns, having appended the circular-reference
    records and changed nothing else; when some key has none, the call
    leaves by the exception. *)
Theorem report_unresolved_vars_safe s :
  (references_defined s ->
   report_unresolved_vars s =
   Returned tt
     (with_errors
        (errors s ++ circular_errors (symbols_table s) (references_table s))
        s)) /\
  (~ references_defined s -> threw (report_unresolved_vars s)).
Proof.
  split; [apply report_unresolved_vars_returns |].
  intros Hundef.
  destruct (references_defined_dec s) as [H | (k & Hin & Hnone)];
    [contradiction |].
  destruct (report_loop_throws (references_table s) s k Hin Hnone)
    as (st & Hrun & _).
  unfold report_unresolved_vars. rewrite Hrun. exact I.
Qed.
End EngineFacts.

(* ------------------------------------------------------------------ *)
(** ** A parser that is used twice *)

(** The initialization of [parse] resets the counter, the Symbol Table and
    the sink, and leaves the Reference Table as the previous call left it. *)
Lemma initialization_spec s :
  initialization s =
  Returned tt
    (mkState 0 [] (references_table s) [] (flushed s) (environ_calls s)).
Proof. reflexivity. Qed.

(** C3.  A second call of [parse] on the same [Parser] starts with the
    Reference Table of the first call: after the initialization the counter,
    the Symbol Table and the sink are empty, the Reference Table is not.  The
    diagnostics of the second call show it: parsing [shifted_source] reports
    the locations recorded for [cyclic_source] by the call before, where a
    fresh parser reports the locations of [shifted_source]. *)
Theorem reused_parser_keeps_references :
  let s := Sample.after (initialization Sample.reused) in
  (unresolved s = 0%N /\ symbols_table s = [] /\ errors s = [] /\
   references_table s =
     [("B", mkReferenceRecord 1 0); ("A", mkReferenceRecord 1 1)]) /\
  flushed
    (Sample.after
       (Sample.parse [] 2 Sample.shifted_source false true Sample.reused)) =
    flushed Sample.reused ++
    [[CircularReferenceError "B" 1 0; CircularReferenceError "A" 1 1]] /\
  flushed
    (Sample.after (Sample.parse [] 2 Sample.shifted_source false true fresh)) =
    [[CircularReferenceError "B" 1 3; CircularReferenceError "A" 1 0]].
Proof. vm_compute. repeat split. Qed.

(** C2.  On a parser used before, a stall can end without the cycle breaker
    doing its work.  Parsing [self_source] after [cyclic_source]: the scan
    phase returns with one record pending, the sweep stalls, and
    [report_unresolved_vars] meets the key [B] left in the Reference Table by
    the first call, which has no record: the call leaves by the exception
    (here before any record is emitted, [B] being first in the table), [C] is
    not forced and [unresolved] is still 1. *)
Theorem cycle_breaker_aborts_when_reused :
  exists s s1 st,
    @scan_phase (Sample.grammars []) Sample.self_source false Sample.reused =
      Returned tt s /\
    unresolved s = 1%N /\
    @sweep (Sample.grammars []) s = Returned tt s1 /\
    unresolved s1 = unresolved s /\
    Table.keys (references_table s1) = ["B"; "A"; "C"] /\
    Table.find "B" (symbols_table s1) = None /\
    (report_unresolved_vars ;;; @resolve_unresolved_vars (Sample.grammars []))
      s1 = Thrown st /\
    errors st = [] /\ unresolved st = 1%N /\
    Table.find "C" (symbols_table st) = Some (mkSymbolRecord "${C}" true 1).
Proof.
  do 3 eexists.
  split; [vm_compute; reflexivity |].
  split; [reflexivity |].
  split; [vm_compute; reflexivity |].
  split; [reflexivity |].
  split; [reflexivity |].
  split; [reflexivity |].
  split; [vm_compute; reflexivity |].
  repeat split.
Qed.

(** C9.  On a parser used before, [parse] can leave by the exception of
    [report_unresolved_vars]: parsing [self_source] after [cyclic_source]
    ends before escape expansion, registration and the flush.  Nothing has
    been registered for [C] and no batch has been flushed. *)
Theorem parse_aborts_when_reused :
  exists st,
    Sample.parse [] 2 Sample.self_source false true Sample.reused = Thrown st /\
    environ_calls st = environ_calls Sample.reused /\
    flushed st = flushed Sample.reused /\
    Table.find "C" (symbols_table st) = Some (mkSymbolRecord "${C}" true 1).
Proof.
  eexists. split; [vm_compute; reflexivity |]. repeat split.
Qed.

(* ------------------------------------------------------------------ *)
(** ** The examples of the specification, on the sample grammars *)

(** [A=${B}], [B=hello]: both keys are published as [hello], without a
    diagnostic. *)
Example resolves_reference :
  let s := Sample.after
             (Sample.parse [] 2 (Sample.source ["A=${B}"; "B=hello"]) false
                true fresh) in
  option_map value (Table.find "A" (symbols_table s)) = Some "hello" /\
  option_map value (Table.find "B" (symbols_table s)) = Some "hello" /\
  flushed s = [[]] /\
  environ_calls s =
    [mkSetenvCall "A" "hello" false; mkSetenvCall "B" "hello" false].
Proof. vm_compute. repeat split. Qed.

(** A cycle of three keys: one circular-reference record per key, the three
    keys published empty, and the call returns. *)
Example breaks_cycle :
  let s := Sample.after
             (Sample.parse [] 3
                (Sample.source ["A=${B}"; "B=${C}"; "C=${A}"]) false true
                fresh) in
  map (fun kr => value (snd kr)) (symbols_table s) = [""; ""; ""] /\
  flushed s =
    [[CircularReferenceError "B" 1 0; CircularReferenceError "C" 1 0;
      CircularReferenceError "A" 1 0]] /\
  unresolved s = 0%N.
Proof. vm_compute. repeat split. Qed.

(** A reference to a key nobody defines: one undefined-variable record, and
    the key is published empty. *)
Example reports_undefined :
  let s := Sample.after
             (Sample.parse [] 1 (Sample.source ["A=${MISSING}"]) false true
                fresh) in
  option_map value (Table.find "A" (symbols_table s)) = Some "" /\
  flushed s = [[UndefinedVariableError "MISSING" 1 0]].
Proof. vm_compute. repeat split. Qed.

(** A chain of three keys resolves in two passes. *)
Example resolves_chain :
  @resolve_vars (Sample.grammars []) 2 Sample.chain_scanned =
    @passes (Sample.grammars []) 2 Sample.chain_scanned /\
  map (fun kr => value (snd kr))
    (symbols_table
       (Sample.after
          (@resolve_vars (Sample.grammars []) 2 Sample.chain_scanned))) =
    ["lit"; "lit"; "lit"].
Proof. vm_compute. repeat split. Qed.

(** The two keys that reference each other, over the two containers.  The
    cycle breaker forces the records in table order: where [A] comes first
    it is published empty and [B] keeps its text; where [B] comes first it
    is published as ["x"] and [A], forced after it, takes that value. *)
Example breaks_cycle_in_table_order :
  let s := Sample.after
             (@parse (Sample.grammars []) 2 Sample.cyclic_source false true
                fresh) in
  let s' := Sample.after
              (@parse (Sample.grammars_first []) 2 Sample.cyclic_source false
                 true fresh) in
  environ_calls s =
    [mkSetenvCall "A" "" false; mkSetenvCall "B" "x" false] /\
  environ_calls s' =
    [mkSetenvCall "B" "x" false; mkSetenvCall "A" "x" false] /\
  unresolved s = 0%N /\ unresolved s' = 0%N.
Proof. vm_compute. repeat split. Qed.

(* ------------------------------------------------------------------ *)
(** ** The theorems at work on the sample grammars *)

Lemma parse_terminates_witness :
  List.length (@scanDefinitions (Sample.grammars []) Sample.chain_source) <= 3 /\
  terminated (Sample.parse [] 3 Sample.chain_source false true fresh).
Proof.
  assert (H : List.length
                (@scanDefinitions (Sample.grammars []) Sample.chain_source) <= 3)
    by (vm_compute; lia).
  split; [exact H |].
  apply (@parse_terminates (Sample.grammars []) 3 Sample.chain_source false
           true fresh H).
Defined.

Lemma parse_without_interpolation_witness :
  Sample.parse [] 0 Sample.cyclic_source false false fresh =
  @parse_raw (Sample.grammars []) Sample.cyclic_source false fresh.
Proof.
  exact (proj1 (@parse_without_interpolation (Sample.grammars []) 0
                  Sample.cyclic_source false fresh)).
Defined.

Lemma sweep_short_circuit_witness :
  exists s2,
    @resolve_sweep (Sample.grammars []) ["Z"] Sample.short_scanned =
      Returned tt Sample.short_scanned /\
    (0 < unresolved Sample.short_scanned)%N /\
    @resolve_symbol (Sample.grammars []) "A" Sample.short_scanned =
      Returned true s2 /\
    unresolved s2 = 0%N /\
    @resolve_sweep (Sample.grammars []) (["Z"] ++ "A" :: ["B"])
      Sample.short_scanned = Returned tt s2.
Proof.
  eexists.
  assert (H1 : @resolve_sweep (Sample.grammars []) ["Z"] Sample.short_scanned =
               Returned tt Sample.short_scanned) by (vm_compute; reflexivity).
  assert (H2 : (0 < unresolved Sample.short_scanned)%N) by reflexivity.
  split; [exact H1 |]. split; [exact H2 |].
  split; [vm_compute; reflexivity |].
  split; [reflexivity |].
  apply (@sweep_short_circuit (Sample.grammars []) ["Z"] "A" ["B"]
           Sample.short_scanned Sample.short_scanned _ true H1 H2);
    [vm_compute; reflexivity | reflexivity].
Defined.

Lemma mixed_nodup : NoDup (Table.keys (symbols_table Sample.mixed)).
Proof.
  simpl. repeat constructor; simpl; intuition discriminate.
Defined.

Lemma expand_escape_local_only_witness :
  NoDup (Table.keys (symbols_table Sample.mixed)) /\
  exists t',
    @expand_escape (Sample.grammars []) Sample.mixed =
      Returned tt (with_symbols t' Sample.mixed) /\
    Table.find "HOME" t' = Some (mkSymbolRecord "/root\n" false 0) /\
    Table.find "A" t' =
      Some (@expanded (Sample.grammars []) (mkSymbolRecord "a\tb" true 0)).
Proof.
  split; [exact mixed_nodup |].
  destruct (proj1 (@expand_escape_local_only (Sample.grammars [])) Sample.mixed)
    as (t' & Hrun & _ & Hext & Hloc).
  exists t'. split; [exact Hrun |].
  split; [apply Hext; reflexivity |].
  apply (Hloc mixed_nodup). reflexivity.
Defined.

Lemma register_env_local_only_witness :
  NoDup (Table.keys (symbols_table Sample.mixed)) /\
  @register_env true Sample.mixed =
  Returned tt
    (mkState 0 (symbols_table Sample.mixed) [] [] []
       [mkSetenvCall "A" "a\tb" true; mkSetenvCall "B" "${A}" true]).
Proof.
  split; [exact mixed_nodup |].
  exact (proj1 (@register_env_local_only (Sample.grammars []) true Sample.mixed
                  mixed_nodup)).
Defined.

Lemma cyclic_scanned_defined : references_defined Sample.cyclic_scanned.
Proof.
  intros k Hk. vm_compute in Hk.
  destruct Hk as [<- | [<- | []]]; vm_compute; discriminate.
Defined.

Lemma report_unresolved_vars_safe_witness :
  references_defined Sample.cyclic_scanned /\
  report_unresolved_vars Sample.cyclic_scanned =
  Returned tt
    (with_errors
       [CircularReferenceError "B" 1 0; CircularReferenceError "A" 1 1]
       Sample.cyclic_scanned).
Proof.
  split; [exact cyclic_scanned_defined |].
  exact (proj1 (report_unresolved_vars_safe Sample.cyclic_scanned)
           cyclic_scanned_defined).
Defined.

(* ------------------------------------------------------------------ *)
(** ** Beyond the claims: keys, origins and External records *)

Section OriginFacts.
Context {G : Grammars}.

Lemma origins_update key f t :
  (forall r, local (f r) = local r) ->
  origins (Table.update key f t) = origins t.
Proof.
  intros Hf. unfold origins.
  induction t as [| [k r] rest IH]; simpl; [reflexivity |].
  destruct (String.eqb key k); simpl.
  - rewrite Hf. reflexivity.
  - rewrite IH. reflexivity.
Qed.

Lemma origins_keys t : map fst (origins t) = Table.keys t.
Proof.
  unfold origins, Table.keys. rewrite map_map. reflexivity.
Qed.

Lemma origins_local_records t :
  local_records t = List.length (filter snd (origins t)).
Proof.
  unfold local_records, origins.
  induction t as [| [k r] rest IH]; simpl; [reflexivity |].
  destruct (local r); simpl; rewrite IH; reflexivity.
Qed.

Lemma origin_frame_refl s : origin_frame s s.
Proof. split; auto. Qed.

Lemma origin_frame_trans s1 s2 s3 :
  origin_frame s1 s2 -> origin_frame s2 s3 -> origin_frame s1 s3.
Proof.
  intros [O1 E1] [O2 E2]. split; [congruence |].
  intros k r Hf Hl. apply E2; [apply E1 |]; assumption.
Qed.

Lemma origin_frame_table s s' :
  symbols_table s' = symbols_table s -> origin_frame s s'.
Proof. intros E. unfold origin_frame. rewrite E. auto. Qed.

(** Rewriting the record of a Local key, origin kept. *)
Lemma origin_frame_update key f s r s' :
  Table.find key (symbols_table s) = Some r -> local r = true ->
  (forall r0, local (f r0) = local r0) ->
  symbols_table s' = Table.update key f (symbols_table s) ->
  origin_frame s s'.
Proof.
  intros Hfind Hl Hf E. unfold origin_frame. rewrite E.
  split; [apply origins_update; exact Hf |].
  intros k r0 Hk Hl0.
  destruct (String.eqb_spec key k) as [-> | Hne]; [congruence |].
  rewrite find_update_other by assumption. exact Hk.
Qed.

Lemma scan_symbol_origin key s s' :
  scan_symbol key s = Returned tt s' -> origin_frame s s'.
Proof.
  unfold scan_symbol, bind, symbol_at.
  destruct (Table.find key (symbols_table s)) as [r |] eqn:Hfind;
    [| discriminate].
  destruct (local r) eqn:Hl.
  - unfold ReferencesListener, modify, deref, gets. simpl.
    match goal with
    | |- context [if ?c then _ else _] => destruct c
    end; unfold incr_unresolved, modify, ret; intros E; inversion E;
      (eapply origin_frame_update;
       [exact Hfind | exact Hl | | reflexivity]; reflexivity).
  - unfold ret. intros E. inversion E. apply origin_frame_refl.
Qed.

Lemma resolve_symbol_origin key s b s' :
  resolve_symbol key s = Returned b s' -> origin_frame s s'.
Proof.
  unfold resolve_symbol, bind, symbol_at.
  destruct (Table.find key (symbols_table s)) as [r |] eqn:Hfind;
    [| discriminate].
  destruct (local r) eqn:Hl; simpl.
  - destruct (negb (complete r)).
    + unfold ResolverListener, modify.
      destruct (walk_line (value r) (substitute false (symbols_table s)) ("", 0))
        as [out remaining].
      unfold deref, gets. simpl.
      match goal with
      | |- context [if ?c then _ else _] => destruct c
      end; unfold decr_unresolved, modify, ret; simpl; intros E; inversion E;
        (eapply origin_frame_update;
         [exact Hfind | exact Hl | | reflexivity]; reflexivity).
    + unfold ret. intros E. inversion E. apply origin_frame_refl.
  - unfold ret. intros E. inversion E. apply origin_frame_refl.
Qed.

Lemma force_symbol_origin key s s' :
  force_symbol key s = Returned tt s' -> origin_frame s s'.
Proof.
  unfold force_symbol, bind, symbol_at.
  destruct (Table.find key (symbols_table s)) as [r |] eqn:Hfind;
    [| discriminate].
  destruct (local r) eqn:Hl; simpl.
  - destruct (negb (complete r)).
    + unfold UnresolvedListener, modify.
      destruct (walk_line (value r) (substitute true (symbols_table s)) ("", 0))
        as [out remaining].
      unfold deref, gets. simpl.
      match goal with
      | |- context [if ?c then _ else _] => destruct c
      end; unfold decr_unresolved, modify, ret; simpl; intros E; inversion E;
        (eapply origin_frame_update;
         [exact Hfind | exact Hl | | reflexivity]; reflexivity).
    + unfold ret. intros E. inversion E. apply origin_frame_refl.
  - unfold ret. intros E. inversion E. apply origin_frame_refl.
Qed.

Lemma expand_symbol_origin key s s' :
  expand_symbol key s = Returned tt s' -> origin_frame s s'.
Proof.
  unfold expand_symbol, bind, symbol_at.
  destruct (Table.find key (symbols_table s)) as [r |] eqn:Hfind;
    [| discriminate].
  destruct (local r) eqn:Hl.
  - unfold ExpanderListener, modify. intros E. inversion E.
    eapply origin_frame_update;
      [exact Hfind | exact Hl | | reflexivity]. reflexivity.
  - unfold ret. intros E. inversion E. apply origin_frame_refl.
Qed.

Lemma report_reference_table ref s s' :
  report_reference ref s = Returned tt s' ->
  symbols_table s' = symbols_table s.
Proof.
  destruct ref as [k rr]. unfold report_reference, bind, symbol_at.
  destruct (Table.find k (symbols_table s)) as [r |]; [| discriminate].
  destruct (negb (complete r));
    unfold circular_reference_error, modify, ret; intros E; inversion E;
    reflexivity.
Qed.

(** A loop keeps what each run of its body keeps. *)
Lemma for_each_keeps {K : Type} (body : K -> M unit)
    (R : State -> State -> Prop) :
  (forall s, R s s) ->
  (forall s1 s2 s3, R s1 s2 -> R s2 s3 -> R s1 s3) ->
  (forall k s s', body k s = Returned tt s' -> R s s') ->
  forall ks s s', for_each body ks s = Returned tt s' -> R s s'.
Proof.
  intros Hrefl Htrans Hbody.
  induction ks as [| k rest IH]; intros s s' Hrun; simpl in Hrun.
  - inversion Hrun. apply Hrefl.
  - unfold bind in Hrun.
    destruct (body k s) as [[] s1 | |] eqn:Hk; try discriminate.
    eapply Htrans; [eapply Hbody; exact Hk | apply IH; exact Hrun].
Qed.

Lemma parse_line_origin s s' :
  parse_line s = Returned tt s' -> origin_frame s s'.
Proof.
  apply (for_each_keeps scan_symbol origin_frame origin_frame_refl
           origin_frame_trans scan_symbol_origin).
Qed.

Lemma resolve_unresolved_vars_origin s s' :
  resolve_unresolved_vars s = Returned tt s' -> origin_frame s s'.
Proof.
  apply (for_each_keeps force_symbol origin_frame origin_frame_refl
           origin_frame_trans force_symbol_origin).
Qed.

Lemma expand_escape_origin s s' :
  expand_escape s = Returned tt s' -> origin_frame s s'.
Proof.
  apply (for_each_keeps expand_symbol origin_frame origin_frame_refl
           origin_frame_trans expand_symbol_origin).
Qed.

Lemma report_unresolved_vars_origin s s' :
  report_unresolved_vars s = Returned tt s' -> origin_frame s s'.
Proof.
  intros Hrun. apply origin_frame_table.
  revert Hrun. unfold report_unresolved_vars.
  apply (for_each_keeps report_reference
           (fun a b => symbols_table b = symbols_table a)).
  - reflexivity.
  - intros; congruence.
  - apply report_reference_table.
Qed.

Lemma resolve_sweep_origin ks :
  forall s s', resolve_sweep ks s = Returned tt s' -> origin_frame s s'.
Proof.
  induction ks as [| k rest IH]; intros s s' Hrun; simpl in Hrun.
  - inversion Hrun. apply origin_frame_refl.
  - unfold bind in Hrun.
    destruct (resolve_symbol k s) as [b s1 | |] eqn:Hk; try discriminate.
    apply resolve_symbol_origin in Hk.
    destruct b.
    + inversion Hrun; subst. exact Hk.
    + eapply origin_frame_trans; [exact Hk | apply IH; exact Hrun].
Qed.

Lemma resolve_pass_origin s s' :
  resolve_pass s = Returned tt s' -> origin_frame s s'.
Proof.
  unfold resolve_pass, bind, gets.
  destruct (sweep s) as [[] s1 | |] eqn:Hsweep; try discriminate.
  apply resolve_sweep_origin in Hsweep.
  destruct (unresolved s =? unresolved s1)%N.
  - destruct (report_unresolved_vars s1) as [[] s2 | |] eqn:Hrep;
      try discriminate.
    intros Hforce.
    eapply origin_frame_trans; [exact Hsweep |].
    eapply origin_frame_trans;
      [apply report_unresolved_vars_origin; exact Hrep
      | apply resolve_unresolved_vars_origin; exact Hforce].
  - unfold ret. intros E. inversion E; subst. exact Hsweep.
Qed.

Lemma resolve_vars_origin fuel :
  forall s s', resolve_vars fuel s = Returned tt s' -> origin_frame s s'.
Proof.
  induction fuel as [| fuel IH]; intros s s'; simpl;
    destruct (0 <? unresolved s)%N; try discriminate;
    try (intros E; inversion E; apply origin_frame_refl).
  unfold bind.
  destruct (resolve_pass s) as [[] s1 | |] eqn:Hpass; try discriminate.
  intros Hrun.
  eapply origin_frame_trans;
    [apply resolve_pass_origin; exact Hpass | apply IH; exact Hrun].
Qed.

(** The state [parse_dotenv] leaves in a call of [parse]. *)
Lemma resolution_origin fuel is_ overwrite interpolate s0 s1 :
  resolution fuel is_ overwrite interpolate s0 = Returned tt s1 ->
  origins (symbols_table s1) = origins (raw_table is_ overwrite) /\
  (forall k r, Table.find k (raw_table is_ overwrite) = Some r ->
               local r = false -> Table.find k (symbols_table s1) = Some r).
Proof.
  set (s := mkState 0 (raw_table is_ overwrite) (references_table s0) []
              (flushed s0) (environ_calls s0)).
  destruct interpolate.
  - rewrite resolution_interpolate. unfold bind.
    change (scan_phase is_ overwrite s0) with (parse_line s).
    destruct (parse_line s) as [[] s2 | |] eqn:Hline; try discriminate.
    intros Hres.
    exact (origin_frame_trans s s2 s1 (parse_line_origin s s2 Hline)
             (resolve_vars_origin fuel s2 s1 Hres)).
  - rewrite resolution_raw. intros E. inversion E. subst s1.
    apply (origin_frame_refl s).
Qed.
End OriginFacts.

(* ------------------------------------------------------------------ *)
(** ** Beyond the claims: a parser that is used again *)

Section ReuseFacts.
Context {G : Grammars}.

Lemma references_defined_frame s s' :
  resolution_frame s s' -> (references_defined s <-> references_defined s').
Proof.
  intros (K & R & _). unfold references_defined. rewrite R.
  split; intros H k Hk; specialize (H k Hk);
    apply find_some_in_keys; apply find_some_in_keys in H; congruence.
Qed.

Lemma resolve_vars_thrown fuel :
  forall s st,
    resolving s -> resolve_vars fuel s = Thrown st ->
    ~ references_defined s /\
    flushed st = flushed s /\ environ_calls st = environ_calls s.
Proof.
  induction fuel as [| fuel IH]; intros s st Hinv Hrun.
  - simpl in Hrun. destruct (0 <? unresolved s)%N; discriminate.
  - destruct (N.ltb_spec 0 (unresolved s)) as [Hpos | Hz].
    + rewrite resolve_vars_more in Hrun by assumption. unfold bind in Hrun.
      destruct (resolve_pass_progress s Hinv Hpos)
        as [(s1 & Hpass & Hinv1 & _ & Hframe)
           | (st1 & s1 & Hpass & _ & _ & Hundef & Hf & He)];
        rewrite Hpass in Hrun.
      * destruct (IH s1 st Hinv1 Hrun) as (Hundef & Hf & He).
        split; [rewrite (references_defined_frame s s1 Hframe); exact Hundef |].
        destruct Hframe as (_ & _ & F & C & _). split; congruence.
      * inversion Hrun; subst st1. auto.
    + rewrite resolve_vars_done in Hrun by lia. discriminate.
Qed.

(** The table and the Reference Table the scan phase hands on. *)
Lemma scan_phase_tables is_ overwrite s0 s :
  scan_phase is_ overwrite s0 = Returned tt s ->
  resolving s /\
  Table.keys (symbols_table s) = Table.keys (raw_table is_ overwrite) /\
  flushed s = flushed s0 /\ environ_calls s = environ_calls s0 /\
  forallb is_undefined (errors s) = true /\
  (forall k, In k (Table.keys (references_table s)) ->
             In k (Table.keys (references_table s0)) \/
             In k (Table.keys (raw_table is_ overwrite))).
Proof.
  intros Hscan.
  destruct (scan_phase_spec is_ overwrite s0)
    as (s' & Hscan' & Hinv & _ & Hf & He & Hu & Hr).
  assert (s' = s) by congruence. subst s'.
  assert (Hkeys : Table.keys (symbols_table s) =
                  Table.keys (raw_table is_ overwrite)).
  { pose proof (parse_line_origin
                  (mkState 0 (raw_table is_ overwrite) (references_table s0)
                     [] (flushed s0) (environ_calls s0)) s Hscan) as [Ho _].
    simpl in Ho. rewrite <- !origins_keys. rewrite Ho. reflexivity. }
  split; [exact Hinv |]. split; [exact Hkeys |].
  split; [exact Hf |]. split; [exact He |]. split; [exact Hu |].
  intros k Hk. rewrite <- Hkeys. apply Hr. exact Hk.
Qed.

Lemma resolution_references fuel is_ overwrite interpolate s0 s1 :
  resolution fuel is_ overwrite interpolate s0 = Returned tt s1 ->
  forall k, In k (Table.keys (references_table s1)) ->
            In k (Table.keys (references_table s0)) \/
            In k (Table.keys (raw_table is_ overwrite)).
Proof.
  destruct interpolate.
  - rewrite resolution_interpolate. unfold bind.
    destruct (scan_phase is_ overwrite s0) as [[] s | |] eqn:Hscan;
      try discriminate.
    intros Hres.
    destruct (scan_phase_tables is_ overwrite s0 s Hscan)
      as (Hinv & _ & _ & _ & _ & Hr).
    destruct (resolve_vars_returned fuel s s1 Hinv Hres)
      as (_ & _ & (_ & R & _)).
    rewrite R. exact Hr.
  - rewrite resolution_raw. intros E. inversion E. simpl. auto.
Qed.

Lemma parse_fit_spec fuel is_ overwrite interpolate s0 :
  (forall k, In k (Table.keys (references_table s0)) ->
             In k (Table.keys (raw_table is_ overwrite))) ->
  List.length (scanDefinitions is_) <= fuel ->
  exists sf batch,
    parse fuel is_ overwrite interpolate s0 = Returned tt sf /\
    flushed sf = flushed s0 ++ [batch] /\ errors sf = [] /\
    environ_calls sf =
      environ_calls s0 ++ local_calls overwrite (symbols_table sf).
Proof.
  intros Hstale Hfuel. rewrite parse_unfold. unfold bind.
  destruct interpolate.
  - destruct (resolution_spec fuel is_ overwrite s0 Hfuel)
      as (_ & [(s1 & Hres & Hinv & _ & Hf & He) | (st & Hres & _)]).
    + rewrite Hres.
      destruct (publish_spec overwrite s1 (proj1 Hinv)) as (t' & _ & Hpub & _).
      rewrite Hpub. eexists. eexists. split; [reflexivity |]. simpl.
      rewrite Hf, He. auto.
    + exfalso. rewrite resolution_interpolate in Hres. unfold bind in Hres.
      destruct (scan_phase is_ overwrite s0) as [[] s | |] eqn:Hscan;
        try discriminate.
      * destruct (scan_phase_tables is_ overwrite s0 s Hscan)
          as (Hinv & Hkeys & _ & _ & _ & Hr).
        destruct (resolve_vars_thrown fuel s st Hinv Hres) as (Hundef & _).
        apply Hundef. intros k Hk. apply find_some_in_keys. rewrite Hkeys.
        destruct (Hr k Hk) as [H | H]; [apply Hstale; exact H | exact H].
      * destruct (scan_phase_spec is_ overwrite s0) as (s' & Hs & _).
        congruence.
  - rewrite resolution_raw.
    destruct (publish_spec overwrite
                (mkState 0 (raw_table is_ overwrite) (references_table s0)
                   [] (flushed s0) (environ_calls s0))
                (raw_table_nodup is_ overwrite)) as (t' & _ & Hpub & _).
    rewrite Hpub. eexists. eexists. split; [reflexivity |]. simpl. auto.
Qed.

(** X2.  [parse] returns on any parser whose Reference Table holds only keys
    that the source defines (an empty table, as after construction, is the
    plain case): the call publishes the Local records of its final table and
    flushes one batch.  Fuel for the definitions of the source is enough. *)
Theorem parse_returns_when_references_defined
    fuel is_ overwrite interpolate s0 :
  (forall k, In k (Table.keys (references_table s0)) ->
             In k (Table.keys (raw_table is_ overwrite))) ->
  List.length (scanDefinitions is_) <= fuel ->
  exists sf batch,
    parse fuel is_ overwrite interpolate s0 = Returned tt sf /\
    flushed sf = flushed s0 ++ [batch] /\ errors sf = [] /\
    environ_calls sf =
      environ_calls s0 ++ local_calls overwrite (symbols_table sf).
Proof. apply parse_fit_spec. Qed.

(** X3.  The only way [parse] leaves by an exception: the call interpolates
    and the Reference Table it was entered with holds a key that the source
    does not define.  When that happens no [setenv] call has been made and
    nothing has been flushed. *)
Theorem parse_throws_only_on_stale_reference
    fuel is_ overwrite interpolate s0 st :
  parse fuel is_ overwrite interpolate s0 = Thrown st ->
  interpolate = true /\
  (exists k, In k (Table.keys (references_table s0)) /\
             ~ In k (Table.keys (raw_table is_ overwrite))) /\
  flushed st = flushed s0 /\ environ_calls st = environ_calls s0.
Proof.
  rewrite parse_unfold. unfold bind.
  destruct (resolution fuel is_ overwrite interpolate s0)
    as [[] s1 | st' |] eqn:Hres; try discriminate.
  - destruct (resolution_returned fuel is_ overwrite interpolate s0 s1 Hres)
      as (Hnd & _).
    destruct (publish_spec overwrite s1 Hnd) as (t' & _ & Hpub & _).
    rewrite Hpub. discriminate.
  - intros E. inversion E. subst st'.
    destruct interpolate; [| rewrite resolution_raw in Hres; discriminate].
    split; [reflexivity |].
    rewrite resolution_interpolate in Hres. unfold bind in Hres.
    destruct (scan_phase is_ overwrite s0) as [[] s | |] eqn:Hscan;
      try discriminate.
    + destruct (scan_phase_tables is_ overwrite s0 s Hscan)
        as (Hinv & Hkeys & Hf & He & _ & Hr).
      destruct (resolve_vars_thrown fuel s st Hinv Hres) as (Hundef & Hf' & He').
      split; [| split; congruence].
      destruct (references_defined_dec s) as [Hdef | (k & Hin & Hnone)];
        [contradiction |].
      apply find_none_not_in_keys in Hnone. rewrite Hkeys in Hnone.
      exists k. split; [| exact Hnone].
      destruct (Hr k Hin) as [H | H]; [exact H | contradiction].
    + destruct (scan_phase_spec is_ overwrite s0) as (s' & Hs & _).
      congruence.
Qed.

(** X4.  Parsing a source a second time on the same parser returns: a call
    that returns leaves in the Reference Table only keys the parser had
    before or that the source defines, so a parser fit for a source stays fit
    for it, whatever [interpolate] is the next time. *)
Theorem parse_again_returns fuel is_ overwrite interpolate interpolate' s0 :
  (forall k, In k (Table.keys (references_table s0)) ->
             In k (Table.keys (raw_table is_ overwrite))) ->
  List.length (scanDefinitions is_) <= fuel ->
  exists sf sf',
    parse fuel is_ overwrite interpolate s0 = Returned tt sf /\
    (forall k, In k (Table.keys (references_table sf)) ->
               In k (Table.keys (raw_table is_ overwrite))) /\
    parse fuel is_ overwrite interpolate' sf = Returned tt sf'.
Proof.
  intros Hstale Hfuel.
  destruct (parse_fit_spec fuel is_ overwrite interpolate s0 Hstale Hfuel)
    as (sf & _ & Hparse & _).
  assert (Hstale' : forall k, In k (Table.keys (references_table sf)) ->
                              In k (Table.keys (raw_table is_ overwrite))).
  { destruct (parse_returned fuel is_ overwrite interpolate s0 sf Hparse)
      as (s1 & t' & Hres & _ & _ & _ & _ & _ & _ & ->).
    simpl. intros k Hk.
    destruct (resolution_references fuel is_ overwrite interpolate s0 s1
                Hres k Hk) as [H | H]; [apply Hstale; exact H | exact H]. }
  destruct (parse_fit_spec fuel is_ overwrite interpolate' sf Hstale' Hfuel)
    as (sf' & _ & Hparse' & _).
  exists sf, sf'. auto.
Qed.
End ReuseFacts.

(* ------------------------------------------------------------------ *)
(** ** Beyond the claims: progress of a sweep *)

Section ProgressFacts.
Context {G : Grammars}.

Lemma substitute_ready symbols segs :
  forall out n,
    forallb (reference_ready symbols) segs = true ->
    snd (fold_left (substitute false symbols) segs (out, n)) = n.
Proof.
  induction segs as [| seg rest IH]; intros out n Hready; simpl in *;
    [reflexivity |].
  apply andb_prop in Hready. destruct Hready as [Hseg Hrest].
  destruct seg as [raw | k raw l p | decoded raw l p]; simpl in *;
    try (apply IH; exact Hrest).
  destruct (Table.find k symbols) as [target |]; [| apply IH; exact Hrest].
  rewrite Hseg. apply IH. exact Hrest.
Qed.

Lemma ready_kept s s1 r :
  resolution_step s s1 ->
  ready (symbols_table s) r = true -> ready (symbols_table s1) r = true.
Proof.
  intros (_ & Hkeys & Hkept). unfold ready. rewrite !forallb_forall.
  intros Hready seg Hin. specialize (Hready seg Hin).
  destruct seg as [raw | k raw l p | decoded raw l p]; simpl in *;
    try reflexivity.
  destruct (Table.find k (symbols_table s)) as [target |] eqn:Hfind.
  - rewrite (Hkept k target Hfind (complete_not_pending target Hready)).
    exact Hready.
  - apply find_none_not_in_keys in Hfind. rewrite <- Hkeys in Hfind.
    apply find_none_not_in_keys in Hfind. rewrite Hfind. reflexivity.
Qed.

(** Walking a record whose references are all ready completes it. *)
Lemma resolve_symbol_ready key s r :
  (0 < unresolved s)%N ->
  Table.find key (symbols_table s) = Some r -> pending r = true ->
  ready (symbols_table s) r = true ->
  exists s1,
    resolve_symbol key s = Returned (unresolved s1 =? 0)%N s1 /\
    (unresolved s1 < unresolved s)%N.
Proof.
  intros Hpos Hfind Hp Hready.
  destruct (resolve_symbol_pending key s r Hfind Hp)
    as (out & remaining & Hwalk & Hrun).
  pose proof (substitute_ready (symbols_table s) (scanOccurrences (value r))
                "" 0 Hready) as Hrem.
  unfold walk_line in Hwalk. rewrite Hwalk in Hrem. simpl in Hrem.
  subst remaining. simpl in Hrun.
  match type of Hrun with _ = Returned _ ?st => exists st end.
  split; [exact Hrun |]. simpl.
  rewrite size_decr_positive by assumption. lia.
Qed.

Lemma resolve_sweep_progress key ks :
  forall s r,
    incl ks (Table.keys (symbols_table s)) -> resolving s ->
    (0 < unresolved s)%N -> In key ks ->
    Table.find key (symbols_table s) = Some r -> pending r = true ->
    ready (symbols_table s) r = true ->
    exists s1, resolve_sweep ks s = Returned tt s1 /\
               resolution_step s s1 /\
               (unresolved s1 < unresolved s)%N.
Proof.
  induction ks as [| k0 rest IH]; intros s r Hincl Hinv Hpos Hin Hfind Hp Hready;
    [destruct Hin |].
  destruct (resolve_symbol_step k0 s (Hincl k0 (or_introl eq_refl)) Hinv Hpos)
    as (s1 & Hrun & Hstep & Hinv1 & Hle & _).
  assert (Hincl1 : incl rest (Table.keys (symbols_table s1))).
  { destruct Hstep as (_ & Hkeys & _). rewrite Hkeys.
    intros k Hk. apply Hincl. right. exact Hk. }
  simpl. unfold bind. rewrite Hrun.
  destruct (N.eqb_spec (unresolved s1) 0) as [Hz | Hnz].
  - exists s1. split; [reflexivity |]. split; [exact Hstep | lia].
  - destruct (resolve_sweep_spec rest s1 Hincl1 Hinv1 ltac:(lia))
      as (s2 & Hrun2 & Hstep2 & _ & Hle2 & _).
    destruct (String.eqb_spec k0 key) as [-> | Hne].
    + destruct (resolve_symbol_ready key s r Hpos Hfind Hp Hready)
        as (s1' & Hrun' & Hlt).
      assert (s1' = s1) by congruence. subst s1'.
      exists s2. split; [exact Hrun2 |].
      split; [eapply resolution_step_trans; eassumption | lia].
    + assert (Hin' : In key rest) by (destruct Hin; [contradiction | assumption]).
      assert (Hfind1 : Table.find key (symbols_table s1) = Some r).
      { destruct (in_keys_find k0 _ (Hincl k0 (or_introl eq_refl)))
          as [r0 Hr0].
        destruct (pending r0) eqn:Hp0.
        - destruct (resolve_symbol_pending k0 s r0 Hr0 Hp0)
            as (out & remaining & _ & Hrun').
          simpl in Hrun'. rewrite Hrun in Hrun'. inversion Hrun'.
          simpl. rewrite find_update_other by assumption. exact Hfind.
        - rewrite (resolve_symbol_settled k0 s r0 Hr0 Hp0) in Hrun.
          assert (E : s1 = s) by congruence. rewrite E. exact Hfind. }
      destruct (IH s1 r Hincl1 Hinv1 ltac:(lia) Hin' Hfind1 Hp
                  (ready_kept s s1 r Hstep Hready))
        as (s2' & Hrun2' & Hstep2' & Hlt).
      exists s2'. split; [exact Hrun2' |].
      split; [eapply resolution_step_trans; eassumption | lia].
Qed.

(** X1.  A sweep makes progress whenever some record with work is ready,
    that is, references only records that are complete (or keys without a
    record): the sweep lowers [unresolved], so the pass is that sweep alone,
    the cycle breaker is not called and no diagnostic is added.  Put the
    other way round: a sweep stalls only when every record with work
    references a record that is not complete. *)
Theorem sweep_progress s key r :
  resolving s -> (0 < unresolved s)%N ->
  Table.find key (symbols_table s) = Some r -> pending r = true ->
  ready (symbols_table s) r = true ->
  ~ stalls s /\
  exists s1, sweep s = Returned tt s1 /\
             (unresolved s1 < unresolved s)%N /\
             resolve_pass s = Returned tt s1 /\
             errors s1 = errors s.
Proof.
  intros Hinv Hpos Hfind Hp Hready.
  assert (Hin : In key (Table.keys (symbols_table s)))
    by (apply find_some_in_keys; congruence).
  destruct (resolve_sweep_progress key (Table.keys (symbols_table s)) s r
              (incl_refl _) Hinv Hpos Hin Hfind Hp Hready)
    as (s1 & Hrun & Hstep & Hlt).
  split.
  - intros (s1' & Hrun' & Heq). unfold sweep in Hrun'.
    assert (s1' = s1) by congruence. subst s1'. lia.
  - exists s1. split; [exact Hrun |]. split; [exact Hlt |].
    split.
    + rewrite (resolve_pass_unfold s s1 Hrun).
      destruct (N.eqb_spec (unresolved s) (unresolved s1)); [lia | reflexivity].
    + destruct Hstep as (E & _). rewrite E. reflexivity.
Qed.
End ProgressFacts.

(* ------------------------------------------------------------------ *)
(** ** Beyond the claims: the cycle breaker and the loop *)

Section BreakerFacts.
Context {G : Grammars}.

Lemma force_symbol_settled key s r :
  Table.find key (symbols_table s) = Some r -> pending r = false ->
  force_symbol key s = Returned tt s.
Proof.
  intros Hfind Hp. unfold force_symbol, bind, symbol_at.
  rewrite Hfind. unfold pending in Hp. rewrite Hp. reflexivity.
Qed.

Lemma force_loop_settled ks :
  forall s,
    incl ks (Table.keys (symbols_table s)) -> settled (symbols_table s) ->
    for_each force_symbol ks s = Returned tt s.
Proof.
  induction ks as [| k rest IH]; intros s Hincl Hset; [reflexivity |].
  destruct (in_keys_find k _ (Hincl k (or_introl eq_refl))) as [r Hfind].
  simpl. unfold bind.
  rewrite (force_symbol_settled k s r Hfind (Hset k r Hfind)).
  apply IH; [| exact Hset]. intros k' Hk'. apply Hincl. right. exact Hk'.
Qed.

Lemma resolve_sweep_settled ks :
  forall s,
    incl ks (Table.keys (symbols_table s)) -> settled (symbols_table s) ->
    resolve_sweep ks s = Returned tt s.
Proof.
  induction ks as [| k rest IH]; intros s Hincl Hset; [reflexivity |].
  destruct (in_keys_find k _ (Hincl k (or_introl eq_refl))) as [r Hfind].
  simpl. unfold bind.
  rewrite (resolve_symbol_settled k s r Hfind (Hset k r Hfind)).
  apply IH; [| exact Hset]. intros k' Hk'. apply Hincl. right. exact Hk'.
Qed.

(** X5.  A stall ends the loop when every key of the Reference Table has a
    record: the pass runs the cycle breaker once and [resolve_vars] returns
    right after it.  One circular-reference record per Reference Table entry
    whose record is not complete has been appended, in table order, no
    record has work left, [unresolved] is 0, and the records that were
    settled before the pass are as they were. *)
Theorem stall_ends_the_loop fuel s s1 :
  resolving s -> (0 < unresolved s)%N ->
  sweep s = Returned tt s1 -> unresolved s1 = unresolved s ->
  references_defined s ->
  exists s',
    resolve_vars (S fuel) s = Returned tt s' /\
    errors s' =
      errors s ++ circular_errors (symbols_table s1) (references_table s) /\
    unresolved s' = 0%N /\
    settled (symbols_table s') /\
    (forall k r, Table.find k (symbols_table s) = Some r ->
                 pending r = false -> Table.find k (symbols_table s') = Some r).
Proof.
  intros Hinv Hpos Hsweep Hu Hdef.
  destruct (sweep_spec s Hinv Hpos) as (s1' & Hsweep' & Hstep & Hinv1 & _).
  assert (s1' = s1) by congruence. subst s1'.
  pose proof (proj1 (references_defined_step s s1 Hstep) Hdef) as Hdef1.
  destruct (cycle_breaker_spec s1 Hinv1 Hdef1)
    as (s' & Hrun & Herr & Hz & Hset & _ & Hframe).
  exists s'. split.
  - rewrite resolve_vars_more by assumption. unfold bind.
    rewrite (resolve_pass_unfold s s1 Hsweep), Hu, N.eqb_refl.
    rewrite Hrun. apply resolve_vars_done. exact Hz.
  - destruct Hstep as (E & _ & Hkept).
    split; [rewrite Herr, E; reflexivity |].
    split; [exact Hz |]. split; [exact Hset |].
    intros k r Hfind Hp.
    destruct Hframe as (_ & _ & _ & _ & Hkept' & _).
    apply Hkept'; [apply Hkept |]; assumption.
Qed.

(** X6.  [resolve_unresolved_vars] leaves no record with work: when the
    counter agrees with the table it returns with [unresolved] at 0, having
    changed nothing but the counter and the records that had work; on a table
    without such a record it changes nothing at all. *)
Theorem resolve_unresolved_vars_forces s :
  (resolving s ->
   exists s',
     resolve_unresolved_vars s = Returned tt s' /\
     unresolved s' = 0%N /\ settled (symbols_table s') /\
     resolution_step s s') /\
  (settled (symbols_table s) -> resolve_unresolved_vars s = Returned tt s).
Proof.
  split.
  - intros Hinv.
    destruct (resolve_unresolved_vars_spec s Hinv)
      as (s' & Hrun & Hstep & _ & Hz & Hset).
    exists s'. auto.
  - intros Hset. apply force_loop_settled; [apply incl_refl | exact Hset].
Qed.

(** X10.  The loop of [resolve_vars] relies on the counter: entered with a
    positive [unresolved] on a table where no record has work (every
    Reference Table key having a record), no pass changes the counter, and
    the loop outlasts any fuel. *)
Theorem resolve_vars_spins_without_work fuel :
  forall s,
    (0 < unresolved s)%N -> settled (symbols_table s) ->
    references_defined s ->
    resolve_vars fuel s = OutOfFuel.
Proof.
  induction fuel as [| fuel IH]; intros s Hpos Hset Hdef.
  - simpl. destruct (N.ltb_spec 0 (unresolved s)); [reflexivity | lia].
  - rewrite resolve_vars_more by assumption. unfold bind.
    assert (Hsweep : sweep s = Returned tt s)
      by (apply resolve_sweep_settled; [apply incl_refl | exact Hset]).
    rewrite (resolve_pass_unfold s s Hsweep), N.eqb_refl. unfold bind.
    rewrite (report_unresolved_vars_returns s Hdef).
    set (s1 := with_errors _ s).
    assert (Hforce : resolve_unresolved_vars s1 = Returned tt s1)
      by (apply force_loop_settled; [apply incl_refl | exact Hset]).
    rewrite Hforce. apply IH; assumption.
Qed.
End BreakerFacts.

(* ------------------------------------------------------------------ *)
(** ** Beyond the claims: what a call of [parse] publishes *)

Section PublishFacts.
Context {G : Grammars}.

Lemma origins_find t' :
  forall t k r,
    origins t' = origins t -> Table.find k t = Some r ->
    exists r', Table.find k t' = Some r' /\ local r' = local r.
Proof.
  unfold origins.
  induction t' as [| [k' r'] rest' IH]; intros [| [k0 r0] rest] k r Ho Hfind;
    simpl in *; try discriminate.
  inversion Ho as [[Hk Hl Hrest]]. subst k'.
  destruct (String.eqb k k0).
  - inversion Hfind; subst. eauto.
  - eapply IH; eassumption.
Qed.

Lemma find_in (t : SymbolsTable) k r :
  Table.find k t = Some r -> In (k, r) t.
Proof.
  induction t as [| [k' r'] rest IH]; simpl; [discriminate |].
  destruct (String.eqb_spec k k') as [-> | Hne]; intros E.
  - inversion E. left. reflexivity.
  - right. apply IH. exact E.
Qed.

Lemma incomplete_zero_settled t : incomplete_locals t = 0 -> settled t.
Proof.
  unfold incomplete_locals. intros Hz k r Hfind.
  destruct (pending r) eqn:Hp; [| reflexivity].
  assert (Hin : In (k, r) (filter (fun kr => pending (snd kr)) t))
    by (apply filter_In; split; [apply find_in; exact Hfind | exact Hp]).
  destruct (filter (fun kr => pending (snd kr)) t); [destruct Hin | discriminate].
Qed.

Lemma local_calls_keys overwrite t :
  map env_key (local_calls overwrite t) = map fst (filter snd (origins t)).
Proof.
  unfold local_calls, origins.
  induction t as [| [k r] rest IH]; simpl; [reflexivity |].
  destruct (local r); simpl; rewrite IH; reflexivity.
Qed.

Lemma raw_table_unscanned is_ overwrite : unscanned (raw_table is_ overwrite).
Proof.
  unfold raw_table.
  destruct (define_all_spec overwrite (scanDefinitions is_) [])
    as (_ & H & _); [constructor | intros k r; discriminate | exact H].
Qed.

Lemma raw_table_length is_ overwrite :
  List.length (raw_table is_ overwrite) <= List.length (scanDefinitions is_).
Proof.
  unfold raw_table.
  destruct (define_all_spec overwrite (scanDefinitions is_) [])
    as (_ & _ & H); [constructor | intros k r; discriminate | exact H].
Qed.

Lemma origins_length t : List.length (origins t) = List.length t.
Proof. unfold origins. apply List.length_map. Qed.

Lemma references_walk_errors symbols segs :
  forall w,
    rw_errors (fold_left (references_listener symbols) segs w) =
    rw_errors w ++ undefined_errors symbols segs.
Proof.
  induction segs as [| seg rest IH]; intros w; simpl.
  - rewrite app_nil_r. reflexivity.
  - rewrite IH.
    destruct seg as [raw | k raw l p | decoded raw l p]; simpl;
      try reflexivity.
    destruct (Table.find k symbols); simpl; [reflexivity |].
    rewrite <- app_assoc. reflexivity.
Qed.

Lemma undefined_errors_keys (t t' : SymbolsTable) segs :
  Table.keys t' = Table.keys t ->
  undefined_errors t' segs = undefined_errors t segs.
Proof.
  intros Hkeys. unfold undefined_errors.
  apply flat_map_ext. intros [raw | k raw l p | decoded raw l p];
    try reflexivity.
  destruct (Table.find k t) eqn:E, (Table.find k t') eqn:E';
    try reflexivity; exfalso.
  - apply find_none_not_in_keys in E'. apply E'. rewrite Hkeys.
    apply find_some_in_keys. congruence.
  - apply find_none_not_in_keys in E. apply E. rewrite <- Hkeys.
    apply find_some_in_keys. congruence.
Qed.

Lemma undefined_errors_are_undefined symbols segs :
  forallb is_undefined (undefined_errors symbols segs) = true.
Proof.
  unfold undefined_errors.
  induction segs as [| seg rest IH]; simpl; [reflexivity |].
  rewrite forallb_app, IH, andb_true_r.
  destruct seg as [raw | k raw l p | decoded raw l p]; try reflexivity.
  destruct (Table.find k symbols); reflexivity.
Qed.

Lemma scan_errors_are_undefined t :
  forallb is_undefined (scan_errors t) = true.
Proof.
  unfold scan_errors. generalize t at 1. intros symbols.
  induction t as [| [k r] rest IH]; simpl; [reflexivity |].
  rewrite forallb_app, IH, andb_true_r.
  destruct (local r); [apply undefined_errors_are_undefined | reflexivity].
Qed.

(** What the scan of one record adds to the sink. *)
Lemma scan_symbol_errors key s r :
  Table.find key (symbols_table s) = Some r ->
  exists s',
    scan_symbol key s = Returned tt s' /\
    errors s' =
      errors s ++
      (if local r
       then undefined_errors (symbols_table s) (scanOccurrences (value r))
       else []) /\
    Table.keys (symbols_table s') = Table.keys (symbols_table s) /\
    (forall k, k <> key ->
               Table.find k (symbols_table s') = Table.find k (symbols_table s)).
Proof.
  intros Hfind. unfold scan_symbol, bind, symbol_at. rewrite Hfind.
  destruct (local r) eqn:Hlocal.
  - unfold ReferencesListener, modify, walk_line, deref, gets. simpl.
    rewrite find_update_same, Hfind. simpl.
    pose proof (references_walk_errors (symbols_table s)
                  (scanOccurrences (value r))
                  (mkReferencesWalk "" 0 (references_table s) (errors s)))
      as He.
    simpl in He.
    match goal with
    | |- context [if ?c then _ else _] => destruct c
    end; eexists; (split; [reflexivity |]); simpl;
      (split; [exact He |]); (split; [apply keys_update |]);
      intros k Hk; apply find_update_other; congruence.
  - exists s. unfold ret. rewrite app_nil_r. auto.
Qed.

Lemma scan_loop_errors (todo : list (string * SymbolRecord)) :
  forall s,
    NoDup (map fst todo) ->
    (forall kr, In kr todo ->
                Table.find (fst kr) (symbols_table s) = Some (snd kr)) ->
    exists s',
      for_each scan_symbol (map fst todo) s = Returned tt s' /\
      errors s' =
        errors s ++
        flat_map
          (fun kr =>
             if local (snd kr)
             then undefined_errors (symbols_table s)
                    (scanOccurrences (value (snd kr)))
             else [])
          todo.
Proof.
  induction todo as [| [key r] rest IH]; intros s Hnd Hfind; simpl.
  - exists s. unfold ret. rewrite app_nil_r. auto.
  - inversion Hnd as [| ? ? Hnotin Hnd']; subst.
    destruct (scan_symbol_errors key s r (Hfind (key, r) (or_introl eq_refl)))
      as (s1 & Hrun & He & Hkeys & Hother).
    destruct (IH s1 Hnd') as (s2 & Hrun2 & He2).
    { intros kr Hin.
      assert (Hne : fst kr <> key).
      { intros E. apply Hnotin. rewrite <- E. apply in_map. exact Hin. }
      rewrite (Hother (fst kr) Hne). apply Hfind. right. exact Hin. }
    exists s2. unfold bind. rewrite Hrun. split; [exact Hrun2 |].
    rewrite He2, He, <- app_assoc. f_equal. f_equal.
    apply flat_map_ext. intros kr. destruct (local (snd kr)); [| reflexivity].
    apply undefined_errors_keys. exact Hkeys.
Qed.

(** What the dependency scan adds to the sink. *)
Lemma parse_line_errors s :
  NoDup (Table.keys (symbols_table s)) ->
  exists s',
    parse_line s = Returned tt s' /\
    errors s' = errors s ++ scan_errors (symbols_table s).
Proof.
  intros Hnd. unfold parse_line, for_each_symbol, Table.keys.
  apply scan_loop_errors; [exact Hnd |].
  intros [k r] Hin. simpl. apply find_of_entry; assumption.
Qed.

(** What the resolver adds to the sink: nothing when no pass stalls; when
    a pass stalls it is the last one, and the cycle breaker adds its
    records for the table the stalled sweep left. *)
Lemma resolve_vars_errors fuel :
  forall s s1,
    resolving s -> resolve_vars fuel s = Returned tt s1 ->
    exists n,
      passes n s = Returned tt s1 /\
      (forall m sm, m < n -> passes m s = Returned tt sm ->
                    (0 < unresolved sm)%N) /\
      (((forall m sm, m < n -> passes m s = Returned tt sm -> ~ stalls sm) /\
        errors s1 = errors s) \/
       (exists sm sw,
          0 < n /\ passes (pred n) s = Returned tt sm /\
          sweep sm = Returned tt sw /\ unresolved sw = unresolved sm /\
          errors s1 =
            errors s ++
            circular_errors (symbols_table sw) (references_table s))).
Proof.
  induction fuel as [| fuel IH]; intros s s1 Hinv Hrun.
  - simpl in Hrun.
    destruct (N.ltb_spec 0 (unresolved s)); [discriminate |].
    inversion Hrun; subst s1.
    exists 0. split; [reflexivity |]. split; [intros; lia |].
    left. split; [intros; lia | reflexivity].
  - destruct (N.ltb_spec 0 (unresolved s)) as [Hpos | Hz].
    2:{ rewrite resolve_vars_done in Hrun by lia.
        inversion Hrun; subst s1.
        exists 0. split; [reflexivity |]. split; [intros; lia |].
        left. split; [intros; lia | reflexivity]. }
    rewrite resolve_vars_more in Hrun by assumption.
    unfold bind in Hrun.
    destruct (sweep_spec s Hinv Hpos) as (sw & Hsweep & Hstep & Hinvw & _).
    pose proof (resolve_pass_unfold s sw Hsweep) as Hpass.
    destruct (N.eqb_spec (unresolved s) (unresolved sw)) as [Heq | Hne].
    + destruct (references_defined_dec sw) as [Hdef | (k & Hin & Hnone)].
      * destruct (cycle_breaker_spec sw Hinvw Hdef)
          as (s' & Hbreak & He & Hzero & _).
        rewrite Hbreak in Hpass. rewrite Hpass in Hrun.
        rewrite resolve_vars_done in Hrun by assumption.
        inversion Hrun; subst s1.
        exists 1. split; [simpl; unfold bind; rewrite Hpass; reflexivity |].
        split.
        { intros m sm Hm Hsm. assert (m = 0) by lia. subst m.
          inversion Hsm; subst sm. exact Hpos. }
        right. exists s, sw. split; [lia |]. split; [reflexivity |].
        split; [exact Hsweep |]. split; [congruence |].
        rewrite He. destruct Hstep as (E & _). rewrite E. reflexivity.
      * assert (Hundef : ~ references_defined sw)
          by (intros Hdef; exact (Hdef k Hin Hnone)).
        destruct (cycle_breaker_throws sw Hundef) as (st & Hbreak & _).
        rewrite Hbreak in Hpass. rewrite Hpass in Hrun. discriminate.
    + rewrite Hpass in Hrun.
      destruct (IH sw s1 Hinvw Hrun) as (n & Hn & Hmid & Hend).
      assert (Hshift : forall m, passes (S m) s = passes m sw).
      { intros m. simpl. unfold bind. rewrite Hpass. reflexivity. }
      assert (Hesw : errors sw = errors s /\
                     references_table sw = references_table s).
      { destruct Hstep as (E & _). rewrite E. split; reflexivity. }
      destruct Hesw as [Hesw Hrsw].
      exists (S n). split; [rewrite Hshift; exact Hn |].
      split.
      { intros [| m] sm Hm Hsm.
        - inversion Hsm; subst sm. exact Hpos.
        - rewrite Hshift in Hsm. apply (Hmid m sm); [lia | exact Hsm]. }
      destruct Hend as [[Hnostall He] | (sm & sw' & Hn0 & Hsm & Hsw & Hu & He)].
      * left. split; [| congruence].
        intros [| m] sm Hm Hsm.
        -- inversion Hsm; subst sm. intros (sw' & Hsw' & Hu).
           assert (sw' = sw) by congruence. subst sw'. congruence.
        -- rewrite Hshift in Hsm. apply (Hnostall m sm); [lia | exact Hsm].
      * right. exists sm, sw'. split; [lia |].
        split.
        { simpl. destruct n as [| n']; [lia |].
          rewrite Hshift. exact Hsm. }
        split; [exact Hsw |]. split; [exact Hu |].
        rewrite He, Hesw, Hrsw. reflexivity.
Qed.

(** X7.  A call of [parse] that returns has flushed exactly one batch and
    left the sink empty.  What was in the sink when the call began is
    dropped, not flushed: the call does not depend on it.  Without
    interpolation the batch is empty.  With interpolation the batch is,
    first, the undefined-variable records of the dependency scan: for each
    Local record of the table [parse_dotenv] built, in table order, one
    record per reference of its value to a key without a record; and then
    the circular-reference records of the cycle breaker: none when no pass
    of the loop stalled, and otherwise (the stalled pass is then the last
    one) one record per entry of the Reference Table whose record was not
    complete in the table the stalled sweep left. *)
Theorem parse_flushes_one_batch fuel is_ overwrite interpolate s0 :
  (forall e, parse fuel is_ overwrite interpolate (with_errors e s0) =
             parse fuel is_ overwrite interpolate s0) /\
  (forall sf,
     parse fuel is_ overwrite interpolate s0 = Returned tt sf ->
     errors sf = [] /\
     exists undefined circular,
       flushed sf = flushed s0 ++ [undefined ++ circular] /\
       forallb is_undefined undefined = true /\
       forallb is_circular circular = true /\
       (interpolate = false -> undefined ++ circular = []) /\
       (interpolate = true ->
        undefined = scan_errors (raw_table is_ overwrite) /\
        exists s n,
          scan_phase is_ overwrite s0 = Returned tt s /\
          resolve_vars fuel s = passes n s /\
          (forall m sm, m < n -> passes m s = Returned tt sm ->
                        (0 < unresolved sm)%N) /\
          (((forall m sm, m < n -> passes m s = Returned tt sm ->
                          ~ stalls sm) /\
            circular = []) \/
           (exists sm sw,
              0 < n /\ passes (pred n) s = Returned tt sm /\
              sweep sm = Returned tt sw /\
              unresolved sw = unresolved sm /\
              circular =
                circular_errors (symbols_table sw) (references_table s))))).
Proof.
  split; [intros e; reflexivity |].
  intros sf Hparse.
  destruct (parse_returned fuel is_ overwrite interpolate s0 sf Hparse)
    as (s1 & t' & Hres & _ & _ & Hf & _ & _ & _ & ->).
  simpl. split; [reflexivity |]. rewrite Hf.
  destruct interpolate.
  - rewrite resolution_interpolate in Hres. unfold bind in Hres.
    set (sr := mkState 0 (raw_table is_ overwrite) (references_table s0) []
                 (flushed s0) (environ_calls s0)).
    change (scan_phase is_ overwrite s0) with (parse_line sr) in Hres.
    destruct (parse_line_errors sr (raw_table_nodup is_ overwrite))
      as (s & Hscan & He).
    simpl in He. rewrite Hscan in Hres.
    destruct (scan_phase_tables is_ overwrite s0 s Hscan) as (Hinv & _).
    destruct (resolve_vars_errors fuel s s1 Hinv Hres)
      as (n & Hn & Hmid & Hend).
    assert (Hbatch : exists circular,
               errors s1 = errors s ++ circular /\
               (((forall m sm, m < n -> passes m s = Returned tt sm ->
                               ~ stalls sm) /\
                 circular = []) \/
                (exists sm sw,
                   0 < n /\ passes (pred n) s = Returned tt sm /\
                   sweep sm = Returned tt sw /\
                   unresolved sw = unresolved sm /\
                   circular =
                     circular_errors (symbols_table sw)
                       (references_table s)))).
    { destruct Hend as [[Hnostall E] | (sm & sw & H1 & H2 & H3 & H4 & E)].
      - exists []. rewrite app_nil_r. auto.
      - eexists. split; [exact E |]. right. exists sm, sw. auto 6. }
    destruct Hbatch as (circular & E & Hc).
    exists (scan_errors (raw_table is_ overwrite)), circular.
    rewrite E, He.
    split; [reflexivity |].
    split; [apply scan_errors_are_undefined |].
    split.
    { destruct Hc as [[_ ->] | (sm & sw & _ & _ & _ & _ & ->)];
        [reflexivity | apply circular_errors_are_circular]. }
    split; [discriminate |].
    intros _. split; [reflexivity |].
    exists s, n. split; [exact Hscan |].
    split; [congruence |]. split; [exact Hmid | exact Hc].
  - rewrite resolution_raw in Hres. inversion Hres. simpl.
    exists [], [].
    split; [reflexivity |]. split; [reflexivity |].
    split; [reflexivity |]. split; [reflexivity | discriminate].
Qed.

(** X8.  After a call of [parse] that interpolates and returns, no record of
    the table has a pending reference and [unresolved] is 0 (the table
    fitting a [size_t]). *)
Theorem parse_leaves_records_complete fuel is_ overwrite s0 sf :
  (N.of_nat (List.length (scanDefinitions is_)) < SIZE_MODULUS)%N ->
  parse fuel is_ overwrite true s0 = Returned tt sf ->
  unresolved sf = 0%N /\
  forall k r, Table.find k (symbols_table sf) = Some r -> complete r = true.
Proof.
  intros Hsize Hparse.
  destruct (parse_returned fuel is_ overwrite true s0 sf Hparse)
    as (s1 & t' & Hres & Hnd & Hz & _ & _ & Hexp & Hval & ->).
  specialize (Hz eq_refl). simpl. split; [exact Hz |].
  destruct (resolution_origin fuel is_ overwrite true s0 s1 Hres)
    as [Ho Hext].
  assert (Hset : settled (symbols_table s1)).
  { apply incomplete_zero_settled.
    rewrite resolution_interpolate in Hres. unfold bind in Hres.
    destruct (scan_phase is_ overwrite s0) as [[] s | |] eqn:Hscan;
      try discriminate.
    destruct (scan_phase_tables is_ overwrite s0 s Hscan) as (Hinv & _).
    destruct (resolve_vars_returned fuel s s1 Hinv Hres)
      as ([_ Hc] & _ & _).
    unfold counter_ok in Hc. rewrite Hz in Hc.
    pose proof (incomplete_le_local (symbols_table s1)).
    pose proof (local_le_length (symbols_table s1)).
    pose proof (raw_table_length is_ overwrite).
    pose proof (f_equal (@List.length _) Ho) as Hlen.
    rewrite !origins_length in Hlen.
    rewrite N.mod_small in Hc by lia. lia. }
  pose proof (expand_escape_origin s1 _ Hexp) as [Ho' _]. simpl in Ho'.
  intros k r Hfind.
  destruct (origins_find (symbols_table s1) t' k r (eq_sym Ho') Hfind)
    as (r1 & Hr1 & _).
  rewrite (Hval k r1 Hr1) in Hfind. inversion Hfind.
  assert (Hc1 : complete r1 = true).
  { destruct (local r1) eqn:Hl1.
    - specialize (Hset k r1 Hr1). unfold pending in Hset.
      rewrite Hl1 in Hset. simpl in Hset.
      apply negb_false_iff. exact Hset.
    - destruct (origins_find (raw_table is_ overwrite) (symbols_table s1)
                  k r1 (eq_sym Ho) Hr1) as (r0 & Hr0 & Hl0).
      rewrite Hl1 in Hl0.
      rewrite (Hext k r0 Hr0 Hl0) in Hr1. inversion Hr1. subst r1.
      unfold complete. rewrite (raw_table_unscanned is_ overwrite k r0 Hr0).
      reflexivity. }
  unfold expanded. destruct (local r1); exact Hc1.
Qed.

(** X12.  A call of [parse] that returns keeps what [parse_dotenv] built, the
    values of Local records apart: the final table has the keys of the raw
    table, in its order and with their origins, every External record is
    untouched, and the keys passed to [setenv] are the keys of the Local
    definitions, in table order. *)
Theorem parse_keeps_origins fuel is_ overwrite interpolate s0 sf :
  parse fuel is_ overwrite interpolate s0 = Returned tt sf ->
  origins (symbols_table sf) = origins (raw_table is_ overwrite) /\
  (forall k r, Table.find k (raw_table is_ overwrite) = Some r ->
               local r = false -> Table.find k (symbols_table sf) = Some r) /\
  exists calls,
    environ_calls sf = environ_calls s0 ++ calls /\
    map env_key calls =
      map fst (filter snd (origins (raw_table is_ overwrite))).
Proof.
  intros Hparse.
  destruct (parse_returned fuel is_ overwrite interpolate s0 sf Hparse)
    as (s1 & t' & Hres & _ & _ & _ & He & Hexp & _ & ->).
  destruct (resolution_origin fuel is_ overwrite interpolate s0 s1 Hres)
    as [Ho Hext].
  pose proof (expand_escape_origin s1 _ Hexp) as [Ho' Hext']. simpl in *.
  split; [congruence |]. split.
  - intros k r Hfind Hl. apply Hext'; [apply Hext |]; assumption.
  - exists (local_calls overwrite t'). rewrite He. split; [reflexivity |].
    rewrite local_calls_keys. congruence.
Qed.
End PublishFacts.

(* ------------------------------------------------------------------ *)
(** ** Beyond the claims: the dependency scan *)

Section ScanFacts.
Context {G : Grammars}.

Lemma string_app_nil_r (a : string) : (a ++ "")%string = a.
Proof. induction a as [| c a IH]; simpl; [| rewrite IH]; reflexivity. Qed.

Lemma string_app_assoc (a b c : string) :
  ((a ++ b) ++ c)%string = (a ++ (b ++ c))%string.
Proof. induction a as [| x a IH]; simpl; [| rewrite IH]; reflexivity. Qed.

Lemma update_same key (f : SymbolRecord -> SymbolRecord) t r :
  Table.find key t = Some r -> f r = r -> Table.update key f t = t.
Proof.
  intros Hfind Hf.
  induction t as [| [k v] rest IH]; simpl in *; [reflexivity |].
  destruct (String.eqb key k).
  - inversion Hfind; subst. rewrite Hf. reflexivity.
  - rewrite (IH Hfind). reflexivity.
Qed.

(** The scan of a value without a reference spells the value again and
    records nothing. *)
Lemma references_walk_plain symbols segs :
  forall w,
    forallb (fun seg => negb (is_reference seg)) segs = true ->
    fold_left (references_listener symbols) segs w =
    mkReferencesWalk (rw_value w ++ spell segs)%string (rw_found w)
      (rw_references w) (rw_errors w).
Proof.
  induction segs as [| seg rest IH]; intros w Hplain; simpl in *.
  - rewrite string_app_nil_r. destruct w; reflexivity.
  - apply andb_prop in Hplain. destruct Hplain as [Hseg Hrest].
    rewrite (IH _ Hrest).
    destruct seg as [raw | k raw l p | decoded raw l p]; simpl in *;
      try discriminate; rewrite string_app_assoc; reflexivity.
Qed.

Lemma scan_symbol_plain key s r :
  Table.find key (symbols_table s) = Some r -> num_depends r = 0 ->
  (local r = true -> plain (value r)) ->
  scan_symbol key s = Returned tt s.
Proof.
  intros Hfind Hzero Hplain.
  unfold scan_symbol, bind, symbol_at. rewrite Hfind.
  destruct (local r) eqn:Hl; [| reflexivity].
  destruct (Hplain eq_refl) as [Hnoref Hspell].
  unfold ReferencesListener, modify, walk_line.
  rewrite (references_walk_plain _ _ _ Hnoref). simpl. rewrite Hspell.
  rewrite (update_same key _ (symbols_table s) r Hfind).
  2:{ rewrite Hzero. destruct r; simpl in *. subst. reflexivity. }
  unfold deref, gets. simpl. rewrite Hfind.
  unfold complete. rewrite Hzero. simpl. unfold ret.
  destruct s; reflexivity.
Qed.

Lemma scan_loop_plain ks :
  forall s,
    incl ks (Table.keys (symbols_table s)) ->
    unscanned (symbols_table s) -> reference_free (symbols_table s) ->
    for_each scan_symbol ks s = Returned tt s.
Proof.
  induction ks as [| k rest IH]; intros s Hincl Hzero Hfree; [reflexivity |].
  destruct (in_keys_find k _ (Hincl k (or_introl eq_refl))) as [r Hfind].
  simpl. unfold bind.
  rewrite (scan_symbol_plain k s r Hfind (Hzero k r Hfind) (Hfree k r Hfind)).
  apply IH; try assumption. intros k' Hk'. apply Hincl. right. exact Hk'.
Qed.

(** X9.  For a source none of whose Local values holds a reference,
    interpolation is a no-op: [parse] with [interpolate == true] does what
    it does with [interpolate == false], whatever the fuel.  The dependency
    scan changes nothing and the resolver has nothing to do. *)
Theorem parse_without_references fuel is_ overwrite s0 :
  reference_free (raw_table is_ overwrite) ->
  parse fuel is_ overwrite true s0 = parse fuel is_ overwrite false s0.
Proof.
  intros Hfree. rewrite !parse_unfold. unfold bind.
  rewrite resolution_interpolate, resolution_raw. unfold bind.
  set (s := mkState 0 (raw_table is_ overwrite) (references_table s0) []
              (flushed s0) (environ_calls s0)).
  change (scan_phase is_ overwrite s0) with (parse_line s).
  assert (Hscan : parse_line s = Returned tt s).
  { apply scan_loop_plain;
      [apply incl_refl | apply raw_table_unscanned | exact Hfree]. }
  rewrite Hscan, resolve_vars_done by reflexivity. reflexivity.
Qed.

(** X11.  [parse_line], entered as [parse] enters it (a table without
    repeated keys whose records have no pending reference, [unresolved] at
    0), returns with the counter agreeing with the table: [unresolved] is the
    number of Local records left with pending references (as a [size_t]),
    at most the number of Local records.  The keys and origins of the table
    are kept, External records are untouched, and nothing is registered or
    flushed. *)
Theorem parse_line_counts s :
  NoDup (Table.keys (symbols_table s)) ->
  unscanned (symbols_table s) ->
  unresolved s = 0%N ->
  exists s',
    parse_line s = Returned tt s' /\
    counter_ok s' /\
    N.to_nat (unresolved s') <= local_records (symbols_table s') /\
    origin_frame s s' /\
    flushed s' = flushed s /\ environ_calls s' = environ_calls s.
Proof.
  intros Hnd Hzero Hu.
  assert (Hinv : resolving s).
  { split; [exact Hnd |]. unfold counter_ok. rewrite Hu.
    rewrite incomplete_none; [reflexivity | exact Hnd |].
    intros k r Hfind. unfold pending, complete.
    rewrite (Hzero k r Hfind). apply andb_false_r. }
  destruct (scan_loop_spec (Table.keys (symbols_table s)) s Hnd (incl_refl _))
    as (s' & Hrun & Hinv' & (_ & Hf & He & _)).
  { intros k r _ Hfind. exact (Hzero k r Hfind). }
  { exact Hinv. }
  exists s'. split; [exact Hrun |]. split; [exact (proj2 Hinv') |].
  split; [exact (proj1 (unresolved_bound s' Hinv')) |].
  split; [apply parse_line_origin; exact Hrun | auto].
Qed.
End ScanFacts.

(* ------------------------------------------------------------------ *)
(** ** The further theorems at work on the sample grammars *)

Lemma short_scanned_resolving : resolving Sample.short_scanned.
Proof.
  split.
  - vm_compute. repeat constructor; simpl; intuition discriminate.
  - vm_compute. reflexivity.
Defined.

Lemma cyclic_scanned_resolving : resolving Sample.cyclic_scanned.
Proof.
  split.
  - vm_compute. repeat constructor; simpl; intuition discriminate.
  - vm_compute. reflexivity.
Defined.

Lemma mixed_settled : settled (symbols_table Sample.mixed).
Proof.
  intros k r Hfind. apply find_in in Hfind. vm_compute in Hfind.
  destruct Hfind as [E | [E | [E | []]]]; inversion E; reflexivity.
Defined.

Lemma plain_source_reference_free :
  @reference_free (Sample.grammars [])
    (@raw_table (Sample.grammars []) Sample.plain_source false).
Proof.
  intros k r Hfind _. apply find_in in Hfind. vm_compute in Hfind.
  destruct Hfind as [E | [E | []]]; inversion E; split; vm_compute;
    reflexivity.
Defined.

Lemma sweep_progress_witness :
  resolving Sample.short_scanned /\
  ~ @stalls (Sample.grammars []) Sample.short_scanned.
Proof.
  split; [exact short_scanned_resolving |].
  apply (@sweep_progress (Sample.grammars []) Sample.short_scanned "A"
           (mkSymbolRecord "${B}" true 1) short_scanned_resolving);
    reflexivity.
Defined.

Lemma parse_returns_when_references_defined_witness :
  List.length (@scanDefinitions (Sample.grammars []) Sample.cyclic_source) <= 2 /\
  exists sf batch,
    @parse (Sample.grammars []) 2 Sample.cyclic_source false true fresh = Returned tt sf /\
    flushed sf = flushed fresh ++ [batch] /\ errors sf = [] /\
    environ_calls sf =
      environ_calls fresh ++ local_calls false (symbols_table sf).
Proof.
  assert (H : List.length
                (@scanDefinitions (Sample.grammars []) Sample.cyclic_source) <= 2)
    by (vm_compute; lia).
  split; [exact H |].
  apply (@parse_returns_when_references_defined (Sample.grammars []) 2
           Sample.cyclic_source false true fresh); [intros k [] | exact H].
Defined.

Lemma parse_throws_only_on_stale_reference_witness :
  @parse (Sample.grammars []) 2 Sample.self_source false true Sample.reused =
    Thrown
      (Sample.after
         (@parse (Sample.grammars []) 2 Sample.self_source false true Sample.reused)) /\
  exists k,
    In k (Table.keys (references_table Sample.reused)) /\
    ~ In k (Table.keys
              (@raw_table (Sample.grammars []) Sample.self_source false)).
Proof.
  assert (H : @parse (Sample.grammars []) 2 Sample.self_source false true Sample.reused =
              Thrown
                (Sample.after
                   (@parse (Sample.grammars []) 2 Sample.self_source false true
                      Sample.reused))) by (vm_compute; reflexivity).
  split; [exact H |].
  exact (proj1 (proj2 (@parse_throws_only_on_stale_reference
                         (Sample.grammars []) 2 Sample.self_source false true
                         Sample.reused _ H))).
Defined.

Lemma parse_again_returns_witness :
  List.length (@scanDefinitions (Sample.grammars []) Sample.cyclic_source) <= 2 /\
  exists sf sf',
    @parse (Sample.grammars []) 2 Sample.cyclic_source false true fresh = Returned tt sf /\
    @parse (Sample.grammars []) 2 Sample.cyclic_source false true sf = Returned tt sf'.
Proof.
  assert (H : List.length
                (@scanDefinitions (Sample.grammars []) Sample.cyclic_source) <= 2)
    by (vm_compute; lia).
  split; [exact H |].
  destruct (@parse_again_returns (Sample.grammars []) 2 Sample.cyclic_source
              false true true fresh) as (sf & sf' & H1 & _ & H2);
    [intros k [] | exact H |].
  exists sf, sf'. split; assumption.
Defined.

Lemma stall_ends_the_loop_witness :
  @sweep (Sample.grammars []) Sample.cyclic_scanned =
    Returned tt Sample.cyclic_scanned /\
  exists s',
    @resolve_vars (Sample.grammars []) 1 Sample.cyclic_scanned =
      Returned tt s' /\
    unresolved s' = 0%N.
Proof.
  assert (H : @sweep (Sample.grammars []) Sample.cyclic_scanned =
              Returned tt Sample.cyclic_scanned) by (vm_compute; reflexivity).
  split; [exact H |].
  destruct (@stall_ends_the_loop (Sample.grammars []) 0 Sample.cyclic_scanned
              Sample.cyclic_scanned cyclic_scanned_resolving eq_refl H eq_refl
              cyclic_scanned_defined) as (s' & Hrun & _ & Hz & _).
  exists s'. split; assumption.
Defined.

Lemma resolve_unresolved_vars_forces_witness :
  resolving Sample.cyclic_scanned /\
  exists s',
    @resolve_unresolved_vars (Sample.grammars []) Sample.cyclic_scanned =
      Returned tt s' /\
    unresolved s' = 0%N.
Proof.
  split; [exact cyclic_scanned_resolving |].
  destruct (proj1 (@resolve_unresolved_vars_forces (Sample.grammars [])
                     Sample.cyclic_scanned) cyclic_scanned_resolving)
    as (s' & Hrun & Hz & _).
  exists s'. split; assumption.
Defined.

Lemma parse_flushes_one_batch_witness :
  @parse (Sample.grammars []) 2 Sample.cyclic_source false true fresh =
    Returned tt Sample.reused /\
  errors Sample.reused = [] /\
  exists undefined circular,
    flushed Sample.reused = flushed fresh ++ [undefined ++ circular] /\
    forallb is_undefined undefined = true /\
    forallb is_circular circular = true /\
    (true = false -> undefined ++ circular = []) /\
    (true = true ->
     undefined =
       @scan_errors (Sample.grammars [])
         (@raw_table (Sample.grammars []) Sample.cyclic_source false) /\
     exists s n,
       @scan_phase (Sample.grammars []) Sample.cyclic_source false fresh =
         Returned tt s /\
       @resolve_vars (Sample.grammars []) 2 s =
         @passes (Sample.grammars []) n s /\
       (forall m sm,
          m < n -> @passes (Sample.grammars []) m s = Returned tt sm ->
          (0 < unresolved sm)%N) /\
       (((forall m sm,
            m < n -> @passes (Sample.grammars []) m s = Returned tt sm ->
            ~ @stalls (Sample.grammars []) sm) /\
         circular = []) \/
        (exists sm sw,
           0 < n /\
           @passes (Sample.grammars []) (pred n) s = Returned tt sm /\
           @sweep (Sample.grammars []) sm = Returned tt sw /\
           unresolved sw = unresolved sm /\
           circular =
             circular_errors (symbols_table sw) (references_table s)))).
Proof.
  assert (H : @parse (Sample.grammars []) 2 Sample.cyclic_source false true fresh =
              Returned tt Sample.reused) by (vm_compute; reflexivity).
  split; [exact H |].
  exact (proj2 (@parse_flushes_one_batch (Sample.grammars []) 2
                  Sample.cyclic_source false true fresh)
           Sample.reused H).
Defined.

Lemma parse_leaves_records_complete_witness :
  (N.of_nat
     (List.length (@scanDefinitions (Sample.grammars []) Sample.cyclic_source))
   < SIZE_MODULUS)%N /\
  @parse (Sample.grammars []) 2 Sample.cyclic_source false true fresh =
    Returned tt Sample.reused /\
  unresolved Sample.reused = 0%N.
Proof.
  assert (H1 : (N.of_nat
                  (List.length
                     (@scanDefinitions (Sample.grammars [])
                        Sample.cyclic_source)) < SIZE_MODULUS)%N)
    by (vm_compute; reflexivity).
  assert (H2 : @parse (Sample.grammars []) 2 Sample.cyclic_source false true fresh =
               Returned tt Sample.reused) by (vm_compute; reflexivity).
  split; [exact H1 |]. split; [exact H2 |].
  exact (proj1 (@parse_leaves_records_complete (Sample.grammars []) 2
                  Sample.cyclic_source false fresh Sample.reused H1 H2)).
Defined.

Lemma parse_without_references_witness :
  @reference_free (Sample.grammars [])
    (@raw_table (Sample.grammars []) Sample.plain_source false) /\
  @parse (Sample.grammars []) 0 Sample.plain_source false true fresh =
  @parse (Sample.grammars []) 0 Sample.plain_source false false fresh.
Proof.
  split; [exact plain_source_reference_free |].
  exact (@parse_without_references (Sample.grammars []) 0 Sample.plain_source
           false fresh plain_source_reference_free).
Defined.

Lemma resolve_vars_spins_without_work_witness :
  settled (symbols_table Sample.idle) /\
  @resolve_vars (Sample.grammars []) 5 Sample.idle = OutOfFuel.
Proof.
  split; [exact mixed_settled |].
  apply (@resolve_vars_spins_without_work (Sample.grammars []) 5 Sample.idle);
    [reflexivity | exact mixed_settled | intros k []].
Defined.

Lemma parse_line_counts_witness :
  unresolved Sample.chain_raw = 0%N /\
  exists s',
    @parse_line (Sample.grammars []) Sample.chain_raw = Returned tt s' /\
    counter_ok s'.
Proof.
  split; [reflexivity |].
  destruct (@parse_line_counts (Sample.grammars []) Sample.chain_raw
              (@raw_table_nodup (Sample.grammars []) Sample.chain_source false)
              (@raw_table_unscanned (Sample.grammars []) Sample.chain_source
                 false) eq_refl) as (s' & Hrun & Hc & _).
  exists s'. split; assumption.
Defined.

Lemma parse_keeps_origins_witness :
  @parse (Sample.grammars []) 2 Sample.cyclic_source false true fresh =
    Returned tt Sample.reused /\
  origins (symbols_table Sample.reused) =
    origins (@raw_table (Sample.grammars []) Sample.cyclic_source false).
Proof.
  assert (H : @parse (Sample.grammars []) 2 Sample.cyclic_source false true fresh =
              Returned tt Sample.reused) by (vm_compute; reflexivity).
  split; [exact H |].
  exact (proj1 (@parse_keeps_origins (Sample.grammars []) 2
                  Sample.cyclic_source false true fresh Sample.reused H)).
Defined.

(* ------------------------------------------------------------------ *)
(** ** Cycles of references *)

Section CycleFacts.
Context {G : Grammars}.










Lemma passes_app n m s :
  passes (n + m) s = (passes n ;;; passes m) s.
Proof.
  revert s. induction n as [| n IH]; intros s; simpl; [reflexivity |].
  unfold bind. destruct (resolve_pass s) as [[] s1 | |]; try reflexivity.
  apply IH.
Qed.








(** A table whose waiting keys can be ranked has no cycle. *)
Lemma ranked_acyclic t (rank : string -> nat) :
  (forall k k', waits_for t k k' -> rank k' < rank k) -> ~ cycle t.
Proof.
  intros Hrank (k & Hloop).
  assert (H : forall a b, clos_trans string (waits_for t) a b ->
                          rank b < rank a).
  { intros a b Hab. induction Hab as [a b Hstep | a b c _ IH1 _ IH2].
    - apply Hrank. exact Hstep.
    - lia. }
  specialize (H k k Hloop). lia.
Qed.

Lemma waits_for_entries t k k' :
  waits_for t k k' ->
  exists r r',
    In (k, r) t /\ pending r = true /\
    In (Some k') (map referenced (scanOccurrences (value r))) /\
    In (k', r') t /\ complete r' = false.
Proof.
  intros (r & r' & H1 & H2 & H3 & H4 & H5).
  exists r, r'. repeat split; auto using find_in.
Qed.

End CycleFacts.


(** Deciding [waits_for] on a table that is given. *)
Ltac split_in H :=
  vm_compute in H;
  repeat (destruct H as [H | H]; [inversion H; subst; clear H |]);
  try contradiction.

Ltac rank_waits :=
  match goal with
  | |- forall k k', waits_for ?t k k' -> _ =>
      let t' := eval vm_compute in t in
      let E := fresh "E" in
      assert (E : t = t') by (vm_compute; reflexivity);
      try rewrite E; clear E
  end;
  let k := fresh "k" in let k' := fresh "k'" in
  let r := fresh "r" in let r' := fresh "r'" in
  let Hw := fresh "Hw" in
  let Hin := fresh "Hin" in let Hp := fresh "Hp" in
  let Href := fresh "Href" in let Hin' := fresh "Hin'" in
  let Hc := fresh "Hc" in
  intros k k' Hw; apply waits_for_entries in Hw;
  destruct Hw as (r & r' & Hin & Hp & Href & Hin' & Hc);
  split_in Hin; vm_compute in Hp; try discriminate;
  split_in Href; split_in Hin'; vm_compute in Hc; try discriminate;
  vm_compute; lia.




(** Why the cycles are those of the table a pass starts from: a
    substitution can spell a reference that the source did not hold.  The
    table the scan leaves for [spliced_source] has no cycle and the first
    pass makes progress; the table it leaves has one ([A] waits for [Z],
    [Z] for [A]), and the second pass stalls. *)
Example cycle_arises_during_resolution :
  ~ @cycle (Sample.grammars []) (symbols_table Sample.spliced_scanned) /\
  exists s1,
    @passes (Sample.grammars []) 1 Sample.spliced_scanned = Returned tt s1 /\
    (unresolved s1 < unresolved Sample.spliced_scanned)%N /\
    @cycle (Sample.grammars []) (symbols_table s1) /\
    @stalls (Sample.grammars []) s1.
Proof.
  split.
  - apply (@ranked_acyclic (Sample.grammars []) _ Sample.spliced_rank).
    rank_waits.
  - eexists. split; [vm_compute; reflexivity |].
    split; [vm_compute; reflexivity |].
    split.
    + exists "A". apply t_trans with (y := "Z"); apply t_step.
      * do 2 eexists. vm_compute. repeat split; auto.
      * do 2 eexists. vm_compute. repeat split; auto.
    + eexists. split; vm_compute; reflexivity.
Qed.
